(** * AI-Exam-Ledger: the answer-script revaluation pipeline

    A shallow embedding of [backend/ai-module/revaluation.py] (rubric
    resolution, OCR fallback, question segmentation, scoring, result
    assembly) and of [clean_ocr_text] from
    [backend/ai-module/ocr_extractor.py], with the properties of the
    specification stated and settled against it.

    Conventions.
    - A Python [str] is a [list ascii]: the sequence of its code points,
      for the code points U+0000..U+00FF.  Character classes ([isspace],
      [lower], the regular-expression class [\w]) follow Python 3 on that
      range.
    - A Python [int] is a [Z].
    - A Python [dict] is an association list without duplicate keys, in
      insertion order: [d[k] = v] overwrites in place when [k] is present and
      appends otherwise, as CPython's dict does.
    - [s.find(t)] returns [-1] when [t] does not occur; the model returns
      an [option nat] and the test [idx != -1] is the match on [Some]. *)

From Stdlib Require Import Ascii String List ZArith NArith Bool Arith Lia.
Import ListNotations.

Set Implicit Arguments.

(* ================================================================== *)
(** ** Python strings *)
(* ================================================================== *)

Module Py.

Definition str := list ascii.

(** A literal. *)
Definition lit (s : string) : str := list_ascii_of_string s.

Definition code (c : ascii) : N := N_of_ascii c.

Definition str_eqb (s t : str) : bool :=
  if list_eq_dec ascii_dec s t then true else false.

(** [c.isspace()]; also the class [\s] of [re] on str patterns. *)
Definition isspace (c : ascii) : bool :=
  let n := code c in
  ((9 <=? n) && (n <=? 13) || (28 <=? n) && (n <=? 32)
   || (n =? 133) || (n =? 160))%N.

(** [c.lower()] (one code point to one code point on this range). *)
Definition lower_char (c : ascii) : ascii :=
  let n := code c in
  if ((65 <=? n) && (n <=? 90)
      || (192 <=? n) && (n <=? 222) && negb (n =? 215))%N
  then ascii_of_N (n + 32) else c.

Definition lower (s : str) : str := map lower_char s.

(** The class [\w] of [re] on str patterns: alphanumerics and [_]. *)
Definition isword (c : ascii) : bool :=
  let n := code c in
  ((48 <=? n) && (n <=? 57) || (65 <=? n) && (n <=? 90) || (n =? 95)
   || (97 <=? n) && (n <=? 122)
   || (n =? 170) || (n =? 178) || (n =? 179) || (n =? 181) || (n =? 185)
   || (n =? 186) || (188 <=? n) && (n <=? 190)
   || (192 <=? n) && negb (n =? 215) && negb (n =? 247))%N.

(** [s.lstrip()], [s.rstrip()], [s.strip()]. *)
Fixpoint lstrip (s : str) : str :=
  match s with
  | [] => []
  | c :: s' => if isspace c then lstrip s' else s
  end.

Definition rstrip (s : str) : str := rev (lstrip (rev s)).

Definition strip (s : str) : str := rstrip (lstrip s).

(** Truth value of a str: non-empty. *)
Definition truthy (s : str) : bool :=
  match s with [] => false | _ => true end.

(** [s.startswith(t)]. *)
Fixpoint startswith (t s : str) : bool :=
  match t, s with
  | [], _ => true
  | _ :: _, [] => false
  | a :: t', b :: s' => if ascii_dec a b then startswith t' s' else false
  end.

(** [s.find(t)]: the lowest index at which [t] occurs in [s]. *)
Fixpoint find (t s : str) : option nat :=
  if startswith t s then Some 0
  else match s with
       | [] => None
       | _ :: s' => option_map S (find t s')
       end.

(** [t in s]. *)
Definition contains (t s : str) : bool :=
  match find t s with Some _ => true | None => false end.

(** [s[a:b]] for [0 <= a] and [0 <= b]. *)
Definition slice (s : str) (a b : nat) : str := firstn (b - a) (skipn a s).

(** [s.replace(c, '')] for a one-character [c]. *)
Definition remove_char (c : ascii) (s : str) : str :=
  filter (fun x => if ascii_dec x c then false else true) s.

(** [s.split()]: the maximal runs of non-whitespace characters. *)
Fixpoint split_aux (cur : str) (s : str) : list str :=
  match s with
  | [] => match cur with [] => [] | _ => [rev cur] end
  | c :: s' =>
      if isspace c
      then match cur with
           | [] => split_aux [] s'
           | _ => rev cur :: split_aux [] s'
           end
      else split_aux (c :: cur) s'
  end.

Definition split (s : str) : list str := split_aux [] s.

End Py.

Import Py.

(* ================================================================== *)
(** ** Python dicts keyed by str, in insertion order *)
(* ================================================================== *)

Module Dict.
Section Dict.
Variable V : Type.

Definition dict := list (str * V).

(** [d.get(k)] *)
Fixpoint get (d : dict) (k : str) : option V :=
  match d with
  | [] => None
  | (k', v) :: d' => if str_eqb k' k then Some v else get d' k
  end.

(** [d.get(k, default)] *)
Definition get_or (d : dict) (k : str) (default : V) : V :=
  match get d k with Some v => v | None => default end.

(** [k in d] *)
Definition mem (d : dict) (k : str) : bool :=
  match get d k with Some _ => true | None => false end.

(** [d[k] = v] *)
Fixpoint set (d : dict) (k : str) (v : V) : dict :=
  match d with
  | [] => [(k, v)]
  | (k', v') :: d' =>
      if str_eqb k' k then (k', v) :: d' else (k', v') :: set d' k v
  end.

(** [d.keys()] and [d.items()] *)
Definition keys (d : dict) : list str := map fst d.
Definition items (d : dict) : list (str * V) := d.

(** The invariant of a dict: no key twice. *)
Definition wf (d : dict) : Prop := NoDup (keys d).
End Dict.
End Dict.

(* ================================================================== *)
(** ** Data model *)
(* ================================================================== *)

(** A grading rule is a JSON object; each of its five fields may be
    missing, and the code reads every field through [rule.get]. *)
Record GradingRule := mkRule {
  max_marks : option Z;
  definition_marks : option Z;
  keyword_marks : option Z;
  explanation_marks : option Z;
  keywords : option (list str)
}.

(** [rule.get(field, default)] *)
Definition rule_get {A} (field : option A) (default : A) : A :=
  match field with Some v => v | None => default end.

Definition Rubric := Dict.dict GradingRule.

Record Breakdown := mkBreakdown {
  bd_definition : Z;
  bd_keywords : Z;
  bd_explanation : Z
}.

Record Result := mkResult {
  question : str;
  suggested_marks : Z;
  res_max_marks : Z;
  breakdown : Breakdown
}.

(** The default rubric template for questions not in the rubric
    (revaluation.py, lines 201-207). *)
Definition default_rule : GradingRule :=
  {| max_marks := Some 10%Z;
     definition_marks := Some 3%Z;
     keyword_marks := Some 4%Z;
     explanation_marks := Some 3%Z;
     keywords := Some [] |}.

(* ================================================================== *)
(** ** Scorer and result assembly (revaluation.py, lines 198-245) *)
(* ================================================================== *)

Open Scope Z_scope.

(** The keyword loop: [keyword_count] after the [for kw in ...]. *)
Definition keyword_count (kws : list str) (answer_text : str) : Z :=
  fold_left
    (fun count kw =>
       if contains (lower kw) (lower answer_text) then count + 1 else count)
    kws 0.

(** The body of the scoring loop for one question. *)
Definition score_entry (rule : GradingRule) (qid answer_text : str) : Result :=
  let score := 0 in
  (* Definition marks *)
  let '(score, b_definition) :=
    if (10 <? length (strip answer_text))%nat
    then (score + rule_get (definition_marks rule) 0,
          rule_get (definition_marks rule) 0)
    else (score, 0) in
  (* Keyword marks *)
  let count := keyword_count (rule_get (keywords rule) []) answer_text in
  let keyword_score := Z.min (count * 2) (rule_get (keyword_marks rule) 0) in
  let score := score + keyword_score in
  (* Explanation marks *)
  let '(score, b_explanation) :=
    if (15 <? length (split answer_text))%nat
    then (score + rule_get (explanation_marks rule) 0,
          rule_get (explanation_marks rule) 0)
    else (score, 0) in
  {| question := qid;
     suggested_marks := score;
     res_max_marks := rule_get (max_marks rule) 10;
     breakdown := {| bd_definition := b_definition;
                     bd_keywords := keyword_score;
                     bd_explanation := b_explanation |} |}.

(** The scoring loop: one [results.append] per item of
    [question_answers], in the dict's order.  The globals the loop reads
    ([rubric], [default_rule], [question_answers]) are its parameters. *)
Definition score_all (rubric : Rubric) (default_rule : GradingRule)
  (question_answers : Dict.dict str) : list Result :=
  fold_left
    (fun results '(qid, answer_text) =>
       let rule := Dict.get_or rubric qid default_rule in
       results ++ [score_entry rule qid answer_text])
    (Dict.items question_answers) [].

Close Scope Z_scope.

(* ================================================================== *)
(** ** Text normalizer (ocr_extractor.py, [clean_ocr_text]) *)
(* ================================================================== *)

(** [re.sub(c+, c, text)] for a single character [c]: every maximal run
    of [c] becomes one [c].  This is also [re.sub(c{2,}, c, text)], which
    leaves the runs of length one as they are. *)
Fixpoint squeeze (c : ascii) (text : str) : str :=
  match text with
  | [] => []
  | x :: rest =>
      if ascii_dec x c
      then match rest with
           | y :: _ => if ascii_dec y c then squeeze c rest
                       else x :: squeeze c rest
           | [] => [x]
           end
      else x :: squeeze c rest
  end.

Definition newline : ascii := ascii_of_nat 10.
Definition space : ascii := ascii_of_nat 32.

(** The characters kept by [re.sub(r"[^\w\s\.\)\(:\-]", "", text)]. *)
Definition kept (c : ascii) : bool :=
  isword c || isspace c
  || existsb (fun p => if ascii_dec c p then true else false) (lit ".)(:-").

Definition clean_ocr_text (text : str) : str :=
  let text := lower text in
  let text := squeeze newline text in   (* remove extra newlines *)
  let text := squeeze space text in     (* remove extra spaces *)
  let text := filter kept text in       (* remove garbage symbols *)
  strip text.

(* ================================================================== *)
(** ** Question segmenter (revaluation.py, lines 116-194) *)
(* ================================================================== *)

(** An anchor [(idx, cand, key)]. *)
Definition Anchor := (nat * str * str)%type.

Definition anchor_pos (a : Anchor) : nat := fst (fst a).

(** The label variants tried for a lower-cased key [k], in order. *)
Definition candidates (k : str) : list str :=
  let q := ascii_of_nat 113 in
  [ k; k ++ lit ":"; k ++ lit "."; k ++ lit ")"; k ++ lit "-";
    remove_char q k ++ lit "."; remove_char q k ++ lit ")";
    remove_char q k ++ lit ":" ].

(** The inner [for cand in candidates] loop with its [break]. *)
Fixpoint first_found (low_text : str) (cands : list str) (key : str)
  : option Anchor :=
  match cands with
  | [] => None
  | cand :: rest =>
      match find cand low_text with
      | Some idx => Some (idx, cand, key)
      | None => first_found low_text rest key
      end
  end.

(** The outer [for key in rubric_keys] loop building [positions]. *)
Definition find_positions (low_text : str) (rubric_keys : list str)
  : list Anchor :=
  fold_left
    (fun positions key =>
       match first_found low_text (candidates (lower key)) key with
       | Some found => positions ++ [found]
       | None => positions
       end)
    rubric_keys [].

(** [positions.sort(key=lambda x: x[0])]: a stable sort on the index. *)
Fixpoint insert_anchor (a : Anchor) (l : list Anchor) : list Anchor :=
  match l with
  | [] => [a]
  | b :: l' =>
      if anchor_pos a <=? anchor_pos b then a :: l
      else b :: insert_anchor a l'
  end.

Definition sort_positions (l : list Anchor) : list Anchor :=
  fold_right insert_anchor [] l.

(** The slicing loop over the sorted [positions]. *)
Fixpoint slice_answers (text : str) (positions : list Anchor)
  (answers : Dict.dict str) : Dict.dict str :=
  match positions with
  | [] => answers
  | (pos, label, key) :: rest =>
      let start := pos + length label in
      let end_ := match rest with
                  | next :: _ => anchor_pos next
                  | [] => length (lower text)
                  end in
      let snippet := strip (slice text start end_) in
      slice_answers text rest (Dict.set answers key snippet)
  end.

Definition extract_by_rubric_keys (text : str) (rubric_keys : list str)
  : Dict.dict str :=
  let low_text := lower text in
  let positions := find_positions low_text rubric_keys in
  let positions := sort_positions positions in
  slice_answers text positions [].

(** Lines 157-162: one slot per rubric key, filled from [extracted] when
    the extracted snippet is not blank. *)
Definition fill_from_extracted (extracted : Dict.dict str)
  (rubric_keys : list str) : Dict.dict str :=
  fold_left
    (fun question_answers k =>
       match Dict.get extracted k with
       | Some v =>
           if truthy (strip v) then Dict.set question_answers k v
           else Dict.set question_answers k []
       | None => Dict.set question_answers k []
       end)
    rubric_keys [].

(** [enumerate(l)] *)
Definition enumerate {A} (l : list A) : list (nat * A) :=
  combine (seq 0 (length l)) l.

(** The chunk of [full_text] for the key at index [idx] (lines 175-177,
    before the [strip]). *)
Definition chunk (full_text : str) (n idx : nat) : str :=
  let text_len := length full_text in
  let chunk_size := Nat.max 1 (text_len / n) in
  let start := idx * chunk_size in
  let end_ := if idx <? n - 1 then (idx + 1) * chunk_size else text_len in
  slice full_text start end_.

(** The loop of lines 173-177.  [question_answers[k]] raises [KeyError]
    on a missing key; the [except] of line 178 then abandons the loop and
    keeps the mapping as it is at that point. *)
Fixpoint fallback_loop (full_text : str) (n : nat)
  (indexed_keys : list (nat * str)) (question_answers : Dict.dict str)
  : Dict.dict str :=
  match indexed_keys with
  | [] => question_answers
  | (idx, k) :: rest =>
      match Dict.get question_answers k with
      | None => question_answers
      | Some v =>
          if negb (truthy (strip v))
          then fallback_loop full_text n rest
                 (Dict.set question_answers k (strip (chunk full_text n idx)))
          else fallback_loop full_text n rest question_answers
      end
  end.

(** Lines 166-177: the equal-size-chunk fallback. *)
Definition chunk_fallback (full_text : str) (rubric_keys : list str)
  (question_answers : Dict.dict str) : Dict.dict str :=
  let empty_keys :=
    filter (fun kv => negb (truthy (strip (snd kv))))
      (Dict.items question_answers) in
  if (0 <? length empty_keys) && truthy (strip full_text) then
    let n := length rubric_keys in
    fallback_loop full_text n (enumerate rubric_keys) question_answers
  else question_answers.

(** Case A (lines 153-177): segmentation driven by the rubric keys. *)
Definition segment_by_rubric (full_text : str) (rubric_keys : list str)
  : Dict.dict str :=
  let extracted := extract_by_rubric_keys full_text rubric_keys in
  let question_answers := fill_from_extracted extracted rubric_keys in
  chunk_fallback full_text rubric_keys question_answers.

(* ================================================================== *)
(** ** The program (revaluation.py, module top level) *)
(* ================================================================== *)

(** The result of a call that may raise: [Raise reason] carries [str(e)]. *)
Inductive outcome (A : Type) : Type :=
| Ok (a : A)
| Raise (reason : str).
Arguments Ok {A} a.
Arguments Raise {A} reason.

(** What [json.loads] gives for the rubric document on stdin: a dict, or
    some other JSON value. *)
Inductive json :=
| JDict (d : Rubric)
| JOther.

(** A line written to stderr: [json.dumps({'warning': w, 'reason': r})]. *)
Record Warning := mkWarning { warning : str; reason : str }.

(** What the run does besides computing: calls of the collaborators and
    lines on stderr, in order. *)
Inductive event :=
| ApiFetch (subject_code : str)
| OcrCall (pdf_path : str)
| Stderr (w : Warning).

(** The document printed on stdout. *)
Inductive Document :=
| DocResults (results : list Result)
| DocError (error reason : str).

Record Run := mkRun {
  trace : list event;
  stdout : Document;
  exit_status : Z
}.

Section Program.

(** [rubric.json] as loaded at lines 39-45 ([{}] when missing or
    unreadable). *)
Variable static_rubric : Rubric.
(** [str.upper]. *)
Variable upper : str -> str.
(** [json.loads]. *)
Variable json_loads : str -> outcome json.
(** [load_rubric_from_api] (lines 11-36): the rubric fetched over the
    network or [None], and the warnings it wrote to stderr. *)
Variable load_rubric_from_api : str -> option Rubric * list Warning.
(** [extract_text_with_ocr] (lines 61-70). *)
Variable extract_text_with_ocr : str -> outcome str.
(** [re.findall(pattern, text, re.DOTALL)] for the pattern of line 182:
    the pairs [(q_number, answer_text)]. *)
Variable re_findall : str -> list (str * str).

(** Lines 84-103: the rubric after reading stdin. *)
Definition resolve_rubric (stdin : outcome str) (subject_code : option str)
  : Rubric * list event :=
  let rubric := static_rubric in
  match stdin with
  | Raise e =>
      (rubric,
       [Stderr (mkWarning (lit "Failed reading stdin for rubric") e)])
  | Ok stdin_data =>
      if truthy stdin_data && truthy (strip stdin_data) then
        match json_loads stdin_data with
        | Ok (JDict parsed) => (parsed, [])
        | Ok JOther => (rubric, [])
        | Raise e =>
            (rubric,
             [Stderr (mkWarning (lit "Invalid rubric JSON on stdin") e)])
        end
      else
        match subject_code with
        | Some code =>
            if truthy code then
              let '(api_rubric, warnings) := load_rubric_from_api code in
              let events := ApiFetch code :: map Stderr warnings in
              match api_rubric with
              | Some r => if 0 <? length r then (r, events)
                          else (rubric, events)
              | None => (rubric, events)
              end
            else (rubric, [])
        | None => (rubric, [])
        end
  end.

(** Case B (lines 182-194): segmentation by the permissive pattern. *)
Definition segment_by_pattern (rubric : Rubric) (full_text : str)
  : Dict.dict str :=
  fold_left
    (fun question_answers '(q_number, answer_text) =>
       let qid := lit "Q" ++ q_number in
       let key := if Dict.mem rubric qid then qid
                  else if Dict.mem rubric (lower qid) then lower qid
                  else qid in
       Dict.set question_answers key
         (Dict.get_or question_answers key [] ++ lit " " ++ answer_text))
    (re_findall full_text) [].

(** Lines 150-194: the segmentation mapping. *)
Definition segment (rubric : Rubric) (full_text : str) : Dict.dict str :=
  let rubric_keys := Dict.keys rubric in
  if 0 <? length rubric_keys
  then segment_by_rubric full_text rubric_keys
  else segment_by_pattern rubric full_text.

(** Lines 150-245: from the effective rubric and the text to [results]. *)
Definition evaluate (rubric : Rubric) (full_text : str) : list Result :=
  score_all rubric default_rule (segment rubric full_text).

(** The whole run: [argv1], [argv2], [argv3] are [sys.argv[1..3]]. *)
Definition main (argv1 : str) (argv2 argv3 : option str)
  (stdin : outcome str) : Run :=
  let full_text := lower (strip argv1) in
  let pdf_path := argv2 in
  let subject_code := option_map (fun a => upper (strip a)) argv3 in
  let '(rubric, events) := resolve_rubric stdin subject_code in
  (* OCR fallback *)
  let ocr :=
    match pdf_path with
    | Some path =>
        if negb (truthy full_text) && truthy path then
          match extract_text_with_ocr path with
          | Ok text => (Ok (lower text), [OcrCall path])
          | Raise e => (Raise e, [OcrCall path])
          end
        else (Ok full_text, [])
    | None => (Ok full_text, [])
    end in
  match ocr with
  | (Raise e, ocr_events) =>
      (* print(json.dumps({"error": "OCR failed", "reason": str(e)}))
         sys.exit(0) *)
      {| trace := events ++ ocr_events;
         stdout := DocError (lit "OCR failed") e;
         exit_status := 0 |}
  | (Ok full_text, ocr_events) =>
      {| trace := events ++ ocr_events;
         stdout := DocResults (evaluate rubric full_text);
         exit_status := 0 |}
  end.

End Program.

(* ================================================================== *)
(** ** The rubric service (revaluation.py, [load_rubric_from_api]) *)
(* ================================================================== *)

(** One entry of [paper['questions']]: a JSON object whose fields may be
    missing.  [questionId] is read by subscript, the others with [get]. *)
Record Question := mkQuestion {
  questionId : option str;
  maxMarks : option Z;
  q_keywords : option (list str);
  definitionMarks : option Z;
  keywordMarks : option Z;
  explanationMarks : option Z
}.

(** [data['data']] when it is truthy. *)
Record Paper := mkPaper { questions : option (list Question) }.

(** The body [resp.json()]: the truth value of [data.get('success')], and
    [data.get('data')] when it is truthy ([None] for a missing or falsy
    one). *)
Record ApiBody := mkApiBody { success : bool; data : option Paper }.

(** The response of [requests.get]; [resp.json()] may raise. *)
Record Response := mkResponse {
  status_code : Z;
  json_body : outcome ApiBody
}.

(** The rule built for one question (lines 24-30). *)
Definition rule_of_question (q : Question) : GradingRule :=
  {| max_marks := Some (rule_get (maxMarks q) 10%Z);
     keywords := Some (rule_get (q_keywords q) []);
     definition_marks := Some (rule_get (definitionMarks q) 0%Z);
     keyword_marks := Some (rule_get (keywordMarks q) 0%Z);
     explanation_marks := Some (rule_get (explanationMarks q) 0%Z) |}.

(** The loop of lines 23-30; [q['questionId']] raises [KeyError] when the
    field is missing. *)
Fixpoint rubric_of_questions (qs : list Question) (out : Rubric)
  : outcome Rubric :=
  match qs with
  | [] => Ok out
  | q :: rest =>
      match questionId q with
      | None => Raise (lit "'questionId'")
      | Some qid =>
          rubric_of_questions rest (Dict.set out qid (rule_of_question q))
      end
  end.

(** The warning of line 35. *)
Definition fetch_warning (e : str) : Warning :=
  mkWarning (lit "Failed to fetch rubric from API") e.

(** Lines 11-36, over the outcome [http_get] of [requests.get] for the
    subject code's URL: the rubric or [None], and the warnings written to
    stderr. *)
Definition load_rubric_from_api (http_get : str -> outcome Response)
  (subject_code : str) : option Rubric * list Warning :=
  match http_get subject_code with
  | Raise e => (None, [fetch_warning e])
  | Ok resp =>
      if (status_code resp =? 200)%Z then
        match json_body resp with
        | Raise e => (None, [fetch_warning e])
        | Ok body =>
            if success body then
              match data body with
              | Some paper =>
                  match rubric_of_questions
                          (rule_get (questions paper) []) [] with
                  | Ok out => (Some out, [])
                  | Raise e => (None, [fetch_warning e])
                  end
              | None => (None, [])
              end
            else (None, [])
        end
      else (None, [])
  end.

(* ================================================================== *)
(** ** The simulated revaluation (scripts/ai_reval.py) *)
(* ================================================================== *)

(** The two random draws of one call: whether [random.random() > 0.3],
    and the value of [random.randint(5, 15)]. *)
Record Draws := mkDraws { change : bool; increase : Z }.

Inductive Verdict := PASS | FAIL.

(** The comment of the result: with the drawn increase, or the
    confirmation of the initial grading. *)
Inductive Comments :=
| Detected (increase : Z)
| Confirmed.

Record Revaluation := mkRevaluation {
  rv_success : bool;
  old_marks : Z;
  new_marks : Z;
  status : Verdict;
  comments : Comments
}.

(** [ai_revaluation] (lines 6-39), after the delay. *)
Definition ai_revaluation (draws : Draws) (current_marks : Z) : Revaluation :=
  let '(new_marks, comments) :=
    if change draws
    then (Z.min 100 (current_marks + increase draws),
          Detected (increase draws))
    else (current_marks, Confirmed) in
  let status := if (24 <=? new_marks)%Z then PASS else FAIL in
  {| rv_success := true;
     old_marks := current_marks;
     new_marks := new_marks;
     status := status;
     comments := comments |}.

(* ================================================================== *)
(** ** Definitions used in the statements *)
(* ================================================================== *)

Unset Implicit Arguments.

Open Scope Z_scope.

(** The test of the keyword loop, for one keyword. *)
Definition keyword_present (answer_text kw : str) : bool :=
  contains (lower kw) (lower answer_text).

(** The number of distinct rubric keywords present in the answer, as the
    specification words it: keywords that differ only in case, or that
    are listed twice, count once. *)
Definition distinct_keywords_present (kws : list str) (answer_text : str)
  : nat :=
  length (nodup (list_eq_dec ascii_dec)
            (filter (fun kw => contains kw (lower answer_text))
               (map lower kws))).

(** A rule with every missing field replaced by the value the
    specification gives for it. *)
Definition with_defaults (rule : GradingRule) : GradingRule :=
  {| max_marks := Some (rule_get (max_marks rule) 10);
     definition_marks := Some (rule_get (definition_marks rule) 0);
     keyword_marks := Some (rule_get (keyword_marks rule) 0);
     explanation_marks := Some (rule_get (explanation_marks rule) 0);
     keywords := Some (rule_get (keywords rule) []) |}.

Definition mitosis_rule : GradingRule :=
  {| max_marks := Some 10;
     definition_marks := Some 3;
     keyword_marks := Some 4;
     explanation_marks := Some 3;
     keywords := Some [lit "mitosis"] |}.

Definition mitosis_answer : str :=
  lit ("mitosis mitosis mitosis is cell division and this sentence has "
       ++ "more than fifteen words to qualify for explanation marks").

(** A rule that lists two different keywords, and one that lists the same
    keyword twice. *)
Definition two_keyword_rule : GradingRule :=
  {| max_marks := Some 10;
     definition_marks := Some 3;
     keyword_marks := Some 4;
     explanation_marks := Some 3;
     keywords := Some [lit "mitosis"; lit "cell"] |}.

Definition repeated_keyword_rule : GradingRule :=
  {| max_marks := Some 10;
     definition_marks := Some 3;
     keyword_marks := Some 4;
     explanation_marks := Some 3;
     keywords := Some [lit "cell"; lit "cell"] |}.

(** Three rubric keys, for a text shorter than the rubric and for one
    that is long enough. *)
Definition three_keys : list str := [lit "Q1"; lit "Q2"; lit "Q3"].

(** A mapping built by a sequence of assignments [d[k] = v], and the keys
    of such a sequence in the order of their first occurrence. *)
Definition dict_of_assignments (kvs : list (str * str)) : Dict.dict str :=
  fold_left (fun d kv => Dict.set d (fst kv) (snd kv)) kvs [].

Definition first_occurrences (ks : list str) : list str :=
  fold_left
    (fun seen k =>
       if existsb (fun k' => str_eqb k' k) seen then seen else seen ++ [k])
    ks [].

(** The text and the rubric keys of the segmentation example. *)
Definition example_text : str :=
  lit "Q1: alpha beta gamma. Q2: delta epsilon".

Definition example_keys : list str := [lit "Q1"; lit "Q2"].

(** Concrete collaborators, for instances of the statements below: a
    [json.loads] that reads the document [{}] only, a static rubric and a
    rubric service that both know one question. *)
Definition sample_json_loads (s : str) : outcome json :=
  if str_eqb s (lit "{}") then Ok (JDict [])
  else Raise (lit "Expecting value").

Definition sample_rubric : Rubric := [(lit "Q1", mitosis_rule)].

Definition sample_api (code : str) : option Rubric * list Warning :=
  (Some sample_rubric, []).

(** A str with a character that is not whitespace. *)
Definition nonblank (s : str) : Prop :=
  exists c, In c s /\ isspace c = false.

(** What the label pass leaves for the key [k] (lines 157-162): the
    extracted snippet when it is not blank, and the empty str otherwise. *)
Definition first_pass (text : str) (rubric_keys : list str) (k : str) : str :=
  match Dict.get (extract_by_rubric_keys text rubric_keys) k with
  | Some v => if truthy (strip v) then v else []
  | None => []
  end.

(** A rubric whose only rule lists the empty keyword. *)
Definition empty_keyword_rubric : Rubric :=
  [(lit "Q1", mkRule (Some 10%Z) (Some 3%Z) (Some 4%Z) (Some 3%Z) (Some [[]]))].

(** [v] occurs in [s] as a run of consecutive characters. *)
Definition substring_of (v s : str) : Prop :=
  exists p q, s = p ++ v ++ q.

(** [s] starts with the character [c]. *)
Definition head_is (c : ascii) (s : str) : bool :=
  match s with
  | x :: _ => if ascii_dec x c then true else false
  | [] => false
  end.

(** [s] has two adjacent occurrences of [c]. *)
Fixpoint has_run (c : ascii) (s : str) : bool :=
  match s with
  | [] => false
  | x :: t => (if ascii_dec x c then head_is c t else false) || has_run c t
  end.

(** A rule whose marks are configured as the data model asks: no negative
    allocation, and allocations that fit in [max_marks]. *)
Definition well_configured (rule : GradingRule) : Prop :=
  (0 <= rule_get (definition_marks rule) 0
   /\ 0 <= rule_get (keyword_marks rule) 0
   /\ 0 <= rule_get (explanation_marks rule) 0
   /\ rule_get (definition_marks rule) 0 + rule_get (keyword_marks rule) 0
      + rule_get (explanation_marks rule) 0
      <= rule_get (max_marks rule) 10)%Z.

(** The number of characters of [s] that are not whitespace. *)
Definition nonspace_count (s : str) : nat :=
  length (filter (fun c => negb (isspace c)) s).


(** The matches of the pattern whose number is [n], and what Case B
    accumulates for them: each answer after a separating space. *)
Definition matches_numbered (n : str) (matches : list (str * str))
  : list (str * str) :=
  filter (fun m => str_eqb (fst m) n) matches.

Definition accumulated (matches : list (str * str)) : str :=
  concat (map (fun m => lit " " ++ snd m) matches).

(** The question ids of a list of questions, in order. *)
Definition question_ids (qs : list Question) : list str :=
  flat_map (fun q => match questionId q with
                     | Some k => [k]
                     | None => []
                     end) qs.

(** Two questions with the same id, and a question without one. *)
Definition question_q1_first : Question :=
  mkQuestion (Some (lit "Q1")) (Some 5%Z) None None None None.

Definition question_q1_second : Question :=
  mkQuestion (Some (lit "Q1")) None (Some [lit "mitosis"]) (Some 3%Z)
    (Some 4%Z) (Some 3%Z).

Definition question_without_id : Question :=
  mkQuestion None (Some 5%Z) None None None None.

(** A rubric service that answers with the given questions. *)
Definition service_with (qs : list Question) (code : str)
  : outcome Response :=
  Ok (mkResponse 200%Z (Ok (mkApiBody true (Some (mkPaper (Some qs)))))).

(* ================================================================== *)
(** * Properties *)
(* ================================================================== *)

(** ** Scorer *)

Lemma keyword_loop_acc (answer_text : str) (kws : list str) (acc : Z) :
  fold_left
    (fun count kw =>
       if contains (lower kw) (lower answer_text) then count + 1 else count)
    kws acc
  = acc + Z.of_nat (length (filter (keyword_present answer_text) kws)).
Proof.
  revert acc.
  induction kws as [|kw kws IH]; intros acc; simpl.
  - lia.
  - rewrite IH. unfold keyword_present at 2.
    destruct (contains (lower kw) (lower answer_text)); simpl length; lia.
Qed.

Lemma keyword_count_filter (kws : list str) (answer_text : str) :
  keyword_count kws answer_text
  = Z.of_nat (length (filter (keyword_present answer_text) kws)).
Proof. unfold keyword_count. now rewrite keyword_loop_acc. Qed.

(** Without repeated keywords (up to case) the entries of the keyword
    list that are present are the distinct keywords present. *)
Lemma distinct_keywords_present_nodup (kws : list str) (answer_text : str) :
  NoDup (map lower kws) ->
  length (filter (keyword_present answer_text) kws)
  = distinct_keywords_present kws answer_text.
Proof.
  intros Hnd. unfold distinct_keywords_present.
  rewrite nodup_fixed_point by (apply NoDup_filter; exact Hnd).
  clear Hnd. induction kws as [|kw kws IH]; simpl; [reflexivity|].
  unfold keyword_present at 1.
  destruct (contains (lower kw) (lower answer_text)); simpl; now rewrite IH.
Qed.

(** The four outputs of the scorer, field by field. *)
Lemma score_entry_fields (rule : GradingRule) (qid answer_text : str) :
  let r := score_entry rule qid answer_text in
  bd_definition (breakdown r)
  = (if (10 <? length (strip answer_text))%nat
     then rule_get (definition_marks rule) 0 else 0)
  /\ bd_keywords (breakdown r)
     = Z.min
         (2 * Z.of_nat
                (length (filter (keyword_present answer_text)
                           (rule_get (keywords rule) []))))
         (rule_get (keyword_marks rule) 0)
  /\ bd_explanation (breakdown r)
     = (if (15 <? length (split answer_text))%nat
        then rule_get (explanation_marks rule) 0 else 0)
  /\ suggested_marks r
     = bd_definition (breakdown r) + bd_keywords (breakdown r)
       + bd_explanation (breakdown r)
  /\ res_max_marks r = rule_get (max_marks rule) 10
  /\ question r = qid.
Proof.
  unfold score_entry. rewrite keyword_count_filter.
  replace (Z.of_nat
             (length (filter (keyword_present answer_text)
                        (rule_get (keywords rule) []))) * 2)
    with (2 * Z.of_nat
                (length (filter (keyword_present answer_text)
                           (rule_get (keywords rule) [])))) by lia.
  destruct (10 <? length (strip answer_text))%nat;
    destruct (15 <? length (split answer_text))%nat;
    cbn; repeat split; lia.
Qed.

(** C2 (as amended).  For every grading rule and every answer, the scorer
    gives: definition = definition_marks when the trimmed answer is longer
    than 10 characters, else 0; keywords = min (2 * the number of entries
    of the rule's keyword list that occur in the answer as case-insensitive
    substrings, keyword_marks), an entry counting once however often it
    occurs in the answer; explanation = explanation_marks when the answer
    has more than 15 whitespace-delimited words, else 0; suggested_marks =
    their sum.  When the keyword list has no repeated entry (up to case),
    the number of entries present is the number of distinct keywords
    present.  The mitosis rule on the mitosis answer gives 3, 2, 3 and 8,
    and on the empty answer it gives zeros. *)
Theorem scorer_formula (rule : GradingRule) (qid answer_text : str) :
  let r := score_entry rule qid answer_text in
  let present :=
    length (filter (keyword_present answer_text)
              (rule_get (keywords rule) [])) in
  bd_definition (breakdown r)
  = (if (10 <? length (strip answer_text))%nat
     then rule_get (definition_marks rule) 0 else 0)
  /\ bd_keywords (breakdown r)
     = Z.min (2 * Z.of_nat present) (rule_get (keyword_marks rule) 0)
  /\ bd_explanation (breakdown r)
     = (if (15 <? length (split answer_text))%nat
        then rule_get (explanation_marks rule) 0 else 0)
  /\ suggested_marks r
     = bd_definition (breakdown r) + bd_keywords (breakdown r)
       + bd_explanation (breakdown r)
  /\ (NoDup (map lower (rule_get (keywords rule) [])) ->
      present
      = distinct_keywords_present (rule_get (keywords rule) []) answer_text)
  /\ score_entry mitosis_rule qid mitosis_answer
     = mkResult qid 8 10 (mkBreakdown 3 2 3)
  /\ score_entry mitosis_rule qid []
     = mkResult qid 0 10 (mkBreakdown 0 0 0).
Proof.
  intros r present.
  destruct (score_entry_fields rule qid answer_text)
    as (Hd & Hk & He & Hs & _ & _).
  repeat split; try assumption.
  apply distinct_keywords_present_nodup.
Qed.

Lemma scorer_formula_witness :
  NoDup (map lower (rule_get (keywords two_keyword_rule) []))
  /\ length (filter (keyword_present mitosis_answer)
               (rule_get (keywords two_keyword_rule) []))
     = distinct_keywords_present (rule_get (keywords two_keyword_rule) [])
         mitosis_answer.
Proof.
  assert (Hnd : NoDup (map lower (rule_get (keywords two_keyword_rule) []))).
  { cbn. repeat constructor; cbn; intuition discriminate. }
  split; [exact Hnd|].
  exact (proj1 (proj2 (proj2 (proj2 (proj2
           (scorer_formula two_keyword_rule (lit "Q1") mitosis_answer)))))
           Hnd).
Defined.

(** C2, as stated, fails when a keyword is listed twice: with keywords
    [cell, cell], keyword_marks 4 and the answer "cell", one distinct
    keyword is present and the claim gives min (2, 4) = 2, and the scorer
    gives 4. *)
Lemma scorer_distinct_counterexample :
  distinct_keywords_present
    (rule_get (keywords repeated_keyword_rule) []) (lit "cell") = 1%nat
  /\ bd_keywords
       (breakdown (score_entry repeated_keyword_rule (lit "Q1") (lit "cell")))
     = 4
  /\ bd_keywords
       (breakdown (score_entry repeated_keyword_rule (lit "Q1") (lit "cell")))
     <> Z.min
          (2 * Z.of_nat
                 (distinct_keywords_present
                    (rule_get (keywords repeated_keyword_rule) [])
                    (lit "cell")))
          (rule_get (keyword_marks repeated_keyword_rule) 0).
Proof.
  split; [vm_compute; reflexivity|].
  split; [vm_compute; reflexivity|].
  vm_compute. discriminate.
Qed.

(** C7.  For every rule with non-negative definition_marks, keyword_marks
    and explanation_marks whose sum is at most max_marks, and every
    answer, 0 <= suggested_marks <= max_marks. *)
Theorem suggested_marks_bounds (rule : GradingRule) (qid answer_text : str)
  (dm km em mm : Z) :
  definition_marks rule = Some dm ->
  keyword_marks rule = Some km ->
  explanation_marks rule = Some em ->
  max_marks rule = Some mm ->
  0 <= dm -> 0 <= km -> 0 <= em -> 0 <= mm ->
  dm + km + em <= mm ->
  let r := score_entry rule qid answer_text in
  0 <= suggested_marks r <= res_max_marks r /\ res_max_marks r = mm.
Proof.
  intros Hdm Hkm Hem Hmm Hd Hk He Hm Hsum r.
  destruct (score_entry_fields rule qid answer_text)
    as (Ed & Ek & Ee & Es & Emax & _).
  fold r in Ed, Ek, Ee, Es, Emax.
  rewrite Es, Ed, Ek, Ee, Emax, Hdm, Hkm, Hem, Hmm. cbn [rule_get].
  destruct (10 <? length (strip answer_text))%nat;
    destruct (15 <? length (split answer_text))%nat; lia.
Qed.

Lemma suggested_marks_bounds_witness :
  (0 <= 3 /\ 0 <= 4 /\ 0 <= 3 /\ 0 <= 10 /\ 3 + 4 + 3 <= 10)
  /\ 0 <= suggested_marks (score_entry mitosis_rule (lit "Q1") mitosis_answer)
       <= res_max_marks (score_entry mitosis_rule (lit "Q1") mitosis_answer)
  /\ res_max_marks (score_entry mitosis_rule (lit "Q1") mitosis_answer) = 10.
Proof.
  split; [lia|].
  apply (suggested_marks_bounds mitosis_rule (lit "Q1") mitosis_answer
           3 4 3 10); try reflexivity; lia.
Defined.

(** C10.  The scorer reads every field of the rule with a default, so a
    rule with missing fields is scored as the rule with 0 for a missing
    definition_marks, keyword_marks or explanation_marks, the empty list
    for missing keywords and 10 for a missing max_marks; a Result entry
    is produced for every rule and answer, and for the rule with no field
    at all it is the all-zero entry out of 10. *)
Theorem scorer_missing_fields (rule : GradingRule) (qid answer_text : str) :
  score_entry rule qid answer_text
  = score_entry (with_defaults rule) qid answer_text
  /\ score_entry (mkRule None None None None None) qid answer_text
     = mkResult qid 0 10 (mkBreakdown 0 0 0)
  /\ (forall mm dm em kws,
        score_entry (mkRule mm dm None em kws) qid answer_text
        = score_entry (mkRule mm dm (Some 0) em kws) qid answer_text)
  /\ (forall mm km em kws,
        score_entry (mkRule mm None km em kws) qid answer_text
        = score_entry (mkRule mm (Some 0) km em kws) qid answer_text)
  /\ (forall mm dm km kws,
        score_entry (mkRule mm dm km None kws) qid answer_text
        = score_entry (mkRule mm dm km (Some 0) kws) qid answer_text)
  /\ (forall mm dm km em,
        score_entry (mkRule mm dm km em None) qid answer_text
        = score_entry (mkRule mm dm km em (Some [])) qid answer_text)
  /\ (forall dm km em kws,
        score_entry (mkRule None dm km em kws) qid answer_text
        = score_entry (mkRule (Some 10) dm km em kws) qid answer_text).
Proof.
  split; [destruct rule as [[mm|] [dm|] [km|] [em|] [kws|]]; reflexivity|].
  split.
  - unfold score_entry.
    destruct (10 <? length (strip answer_text))%nat;
      destruct (15 <? length (split answer_text))%nat; reflexivity.
  - repeat split; intros; reflexivity.
Qed.

Close Scope Z_scope.

(** ** Result assembly *)

Lemma score_loop_acc (rubric : Rubric) (default : GradingRule)
  (items : list (str * str)) (acc : list Result) :
  fold_left
    (fun results '(qid, answer_text) =>
       let rule := Dict.get_or rubric qid default in
       results ++ [score_entry rule qid answer_text])
    items acc
  = acc ++ map (fun kv => score_entry (Dict.get_or rubric (fst kv) default)
                            (fst kv) (snd kv)) items.
Proof.
  revert acc.
  induction items as [|[qid a] l IH]; intros acc; simpl.
  - now rewrite app_nil_r.
  - rewrite IH, <- app_assoc. reflexivity.
Qed.

Lemma score_all_map (rubric : Rubric) (default : GradingRule)
  (question_answers : Dict.dict str) :
  score_all rubric default question_answers
  = map (fun kv => score_entry (Dict.get_or rubric (fst kv) default)
                     (fst kv) (snd kv))
      question_answers.
Proof. unfold score_all, Dict.items. now rewrite score_loop_acc. Qed.

Lemma score_entry_question (rule : GradingRule) (qid answer_text : str) :
  question (score_entry rule qid answer_text) = qid.
Proof. apply score_entry_fields. Qed.

Lemma score_all_questions (rubric : Rubric) (default : GradingRule)
  (question_answers : Dict.dict str) :
  map question (score_all rubric default question_answers)
  = Dict.keys question_answers.
Proof.
  rewrite score_all_map, map_map. unfold Dict.keys.
  apply map_ext. intros [qid a]. apply score_entry_question.
Qed.

Lemma str_eqb_eq (s t : str) : str_eqb s t = true <-> s = t.
Proof.
  unfold str_eqb. destruct (list_eq_dec ascii_dec s t); split;
    intros; congruence.
Qed.

Lemma str_eqb_refl (s : str) : str_eqb s s = true.
Proof. now apply str_eqb_eq. Qed.

Lemma str_eqb_neq (s t : str) : s <> t -> str_eqb s t = false.
Proof.
  intros H. destruct (str_eqb s t) eqn:E; [|reflexivity].
  apply str_eqb_eq in E. contradiction.
Qed.

Section DictFacts.
Context {V : Type}.
Implicit Types (d : Dict.dict V) (k : str) (v : V).

Lemma keys_set d k v :
  Dict.keys (Dict.set d k v)
  = if Dict.mem d k then Dict.keys d else Dict.keys d ++ [k].
Proof.
  unfold Dict.mem.
  induction d as [|[k' v'] d IH]; simpl; [reflexivity|].
  destruct (str_eqb k' k) eqn:E; simpl; [reflexivity|].
  rewrite IH. destruct (Dict.get d k); reflexivity.
Qed.

Lemma get_set_same d k v : Dict.get (Dict.set d k v) k = Some v.
Proof.
  induction d as [|[k' v'] d IH]; simpl.
  - now rewrite str_eqb_refl.
  - destruct (str_eqb k' k) eqn:E; simpl; rewrite E; auto.
Qed.

Lemma get_set_other d k k' v :
  k <> k' -> Dict.get (Dict.set d k v) k' = Dict.get d k'.
Proof.
  intros Hne.
  induction d as [|[k0 v0] d IH]; simpl.
  - now rewrite str_eqb_neq.
  - destruct (str_eqb k0 k) eqn:E; simpl.
    + apply str_eqb_eq in E. subst k0. now rewrite str_eqb_neq.
    + destruct (str_eqb k0 k'); auto.
Qed.



Lemma in_get d k v : Dict.wf d -> In (k, v) d -> Dict.get d k = Some v.
Proof.
  unfold Dict.wf.
  induction d as [|[k' v'] d IH]; simpl; [tauto|].
  intros Hnd [Hin|Hin].
  - injection Hin as -> ->. now rewrite str_eqb_refl.
  - inversion Hnd as [|? ? Hnotin Hnd']; subst.
    destruct (str_eqb k' k) eqn:E.
    + apply str_eqb_eq in E. subst k'. exfalso. apply Hnotin.
      change k with (fst (k, v)). now apply in_map.
    + auto.
Qed.
End DictFacts.

Lemma mem_existsb {V} (d : Dict.dict V) (k : str) :
  Dict.mem d k = existsb (fun k' => str_eqb k' k) (Dict.keys d).
Proof.
  unfold Dict.mem.
  induction d as [|[k' v'] d IH]; simpl; [reflexivity|].
  destruct (str_eqb k' k); [reflexivity|exact IH].
Qed.

Lemma assignments_keys (kvs : list (str * str)) (d : Dict.dict str) :
  Dict.keys (fold_left (fun d kv => Dict.set d (fst kv) (snd kv)) kvs d)
  = fold_left
      (fun seen k =>
         if existsb (fun k' => str_eqb k' k) seen then seen else seen ++ [k])
      (map fst kvs) (Dict.keys d).
Proof.
  revert d. induction kvs as [|[k v] kvs IH]; intros d; simpl;
    [reflexivity|].
  now rewrite IH, keys_set, mem_existsb.
Qed.

(** C8.  For every segmentation mapping, rubric and default rule, the
    questions of the assembled results are the keys of the segmentation
    mapping in the mapping's order, and each entry is the score of its
    snippet under rubric[qid] when the rubric has qid and under the
    default rule otherwise.  The mapping's order is the order of first
    insertion: assigning to a key that is present keeps the order of the
    keys, assigning to a new key puts it last, so that the results for a
    mapping built by any sequence of assignments list the keys in the
    order of their first assignment.  The result is a function of the
    input, so it is the same in every run. *)
Theorem aggregate_order (rubric : Rubric) (default : GradingRule)
  (question_answers : Dict.dict str) :
  map question (score_all rubric default question_answers)
  = Dict.keys question_answers
  /\ score_all rubric default question_answers
     = map (fun kv =>
              let rule := match Dict.get rubric (fst kv) with
                          | Some rule => rule
                          | None => default
                          end in
              score_entry rule (fst kv) (snd kv))
         (Dict.items question_answers)
  /\ (forall k v,
        Dict.keys (Dict.set question_answers k v)
        = if Dict.mem question_answers k then Dict.keys question_answers
          else Dict.keys question_answers ++ [k])
  /\ (forall kvs,
        map question (score_all rubric default (dict_of_assignments kvs))
        = first_occurrences (map fst kvs)).
Proof.
  split; [apply score_all_questions|].
  split; [apply score_all_map|].
  split; [intros k v; apply keys_set|].
  intros kvs. rewrite score_all_questions.
  unfold dict_of_assignments, first_occurrences.
  apply assignments_keys.
Qed.

(** ** Text normalizer *)

(** C4.  [clean_ocr_text] is not idempotent: the garbage symbols are
    removed after the runs of spaces are collapsed, so removing the [$]
    of "a $ b" leaves two adjacent spaces, which a second pass
    collapses. *)
Theorem clean_ocr_text_not_idempotent :
  clean_ocr_text (lit "a $ b") = lit "a  b"
  /\ clean_ocr_text (clean_ocr_text (lit "a $ b")) = lit "a b"
  /\ clean_ocr_text (clean_ocr_text (lit "a $ b"))
     <> clean_ocr_text (lit "a $ b").
Proof. vm_compute. repeat split. discriminate. Qed.

(** ** Label matching *)

Lemma startswith_app_l (k x s : str) :
  startswith (k ++ x) s = true -> startswith k s = true.
Proof.
  revert s. induction k as [|a k IH]; intros s; simpl; [reflexivity|].
  destruct s as [|b s]; [discriminate|].
  destruct (ascii_dec a b); [apply IH|discriminate].
Qed.

Lemma find_app_none (k x s : str) :
  find k s = None -> find (k ++ x) s = None.
Proof.
  induction s as [|b s IH]; simpl.
  - destruct (startswith k []) eqn:E; [discriminate|].
    destruct (startswith (k ++ x) []) eqn:E'; [|reflexivity].
    apply startswith_app_l in E'. congruence.
  - destruct (startswith k (b :: s)) eqn:E; [discriminate|].
    destruct (startswith (k ++ x) (b :: s)) eqn:E'.
    + apply startswith_app_l in E'. congruence.
    + destruct (find k s); [discriminate|]. intros _.
      now rewrite IH.
Qed.

(** The bare key is tried first and occurs wherever the key followed by
    a separator occurs, so the variants [k:], [k.], [k)] and [k-] are
    never the label that is matched. *)
Lemma suffixed_label_never_matched (low_text k key : str) (a : Anchor) :
  first_found low_text (candidates k) key = Some a ->
  snd (fst a) = k
  \/ In (snd (fst a))
       (map (fun sep => remove_char (ascii_of_nat 113) k ++ sep)
          [lit "."; lit ")"; lit ":"]).
Proof.
  unfold candidates. cbn [first_found].
  destruct (find k low_text) eqn:Ek.
  - intros [= <-]. now left.
  - pose proof (fun x => find_app_none k x low_text Ek) as Hx.
    rewrite !Hx.
    repeat match goal with
           | |- context [find ?t low_text] =>
               destruct (find t low_text)
           end;
      intros [= <-]; cbn; auto.
Qed.

(** C3.  On the example, the label matched for a key is the bare key,
    and the separator that follows it stays in the snippet: the
    segmenter yields Q1 -> ": alpha beta gamma." and
    Q2 -> ": delta epsilon", in [extract_by_rubric_keys] and in the whole
    of the rubric-driven segmentation of the lower-cased text. *)
Theorem segmenter_example_keeps_separator :
  extract_by_rubric_keys example_text example_keys
  = [(lit "Q1", lit ": alpha beta gamma."); (lit "Q2", lit ": delta epsilon")]
  /\ segment_by_rubric (lower (strip example_text)) example_keys
     = [(lit "Q1", lit ": alpha beta gamma.");
        (lit "Q2", lit ": delta epsilon")]
  /\ extract_by_rubric_keys example_text example_keys
     <> [(lit "Q1", lit "alpha beta gamma."); (lit "Q2", lit "delta epsilon")].
Proof. vm_compute. repeat split. discriminate. Qed.

(** ** Rubric resolution and the OCR fallback *)

Lemma truthy_nonempty (s : str) : truthy s = true <-> s <> [].
Proof.
  destruct s; simpl; split; congruence.
Qed.

Section ProgramFacts.
Variable static_rubric : Rubric.
Variable upper : str -> str.
Variable json_loads : str -> outcome json.
Variable load_rubric_from_api : str -> option Rubric * list Warning.
Variable extract_text_with_ocr : str -> outcome str.
Variable re_findall : str -> list (str * str).

(** When the text of [argv[1]] is blank, a PDF path is given and the
    OCR raises, the run prints the error document and leaves with
    status 0. *)
Lemma main_ocr_raises (argv1 path : str) (argv3 : option str)
  (stdin : outcome str) (e : str) :
  strip argv1 = [] ->
  path <> [] ->
  extract_text_with_ocr path = Raise e ->
  let run := main static_rubric upper json_loads load_rubric_from_api
               extract_text_with_ocr re_findall
               argv1 (Some path) argv3 stdin in
  stdout run = DocError (lit "OCR failed") e /\ exit_status run = 0%Z.
Proof.
  intros Hblank Hpath Hocr. unfold main.
  destruct (resolve_rubric _ _ _ _ _) as [rubric events].
  rewrite Hblank. cbn [lower map truthy negb andb].
  apply truthy_nonempty in Hpath. rewrite Hpath, Hocr.
  split; reflexivity.
Qed.
End ProgramFacts.

(** C5.  When the text argument is empty, a PDF path is given and the OCR
    raises with reason [e], the run prints the error document
    {error: "OCR failed", reason: e} on stdout in place of the results,
    and leaves with exit status 0. *)
Theorem ocr_failure_exits_with_zero
  (static_rubric : Rubric) (upper : str -> str)
  (json_loads : str -> outcome json)
  (load_rubric_from_api : str -> option Rubric * list Warning)
  (re_findall : str -> list (str * str))
  (argv3 : option str) (stdin : outcome str) (e : str) :
  let run := main static_rubric upper json_loads load_rubric_from_api
               (fun _ => Raise e) re_findall
               (lit "") (Some (lit "scan.pdf")) argv3 stdin in
  stdout run = DocError (lit "OCR failed") e
  /\ exit_status run = 0%Z.
Proof.
  intros run.
  destruct (@main_ocr_raises static_rubric upper json_loads
              load_rubric_from_api (fun _ => Raise e) re_findall
              (lit "") (lit "scan.pdf") argv3 stdin e) as [Hout Hexit];
    try reflexivity; try discriminate.
  fold run in Hout, Hexit. split; assumption.
Qed.

Lemma resolve_rubric_parsed_dict
  (static_rubric : Rubric) (json_loads : str -> outcome json)
  (load_rubric_from_api : str -> option Rubric * list Warning)
  (stdin_data : str) (subject_code : option str) (parsed : Rubric) :
  strip stdin_data <> [] ->
  json_loads stdin_data = Ok (JDict parsed) ->
  resolve_rubric static_rubric json_loads load_rubric_from_api
    (Ok stdin_data) subject_code
  = (parsed, []).
Proof.
  intros Hblank Hjson. unfold resolve_rubric.
  assert (Hdata : truthy stdin_data = true).
  { destruct stdin_data; [now elim Hblank|reflexivity]. }
  apply truthy_nonempty in Hblank.
  now rewrite Hdata, Hblank, Hjson.
Qed.

(** C6.  When stdin carries a rubric document that parses to the empty
    mapping, rubric resolution yields the empty mapping and does nothing
    else, whatever the subject code: the rubric service is not asked (no
    event is recorded) and the static rubric is not used.  The whole run
    then asks for no rubric, and is the run with an empty static rubric
    and a rubric service that has nothing. *)
Theorem explicit_empty_rubric_honoured
  (static_rubric : Rubric) (json_loads : str -> outcome json)
  (load_rubric_from_api : str -> option Rubric * list Warning)
  (stdin_data : str) :
  strip stdin_data <> [] ->
  json_loads stdin_data = Ok (JDict []) ->
  (forall subject_code,
      resolve_rubric static_rubric json_loads load_rubric_from_api
        (Ok stdin_data) subject_code
      = ([], []))
  /\ (forall upper extract_text_with_ocr re_findall argv1 argv2 argv3,
        let run := main static_rubric upper json_loads load_rubric_from_api
                     extract_text_with_ocr re_findall
                     argv1 argv2 argv3 (Ok stdin_data) in
        (forall code, ~ In (ApiFetch code) (trace run))
        /\ run = main [] upper json_loads (fun _ => (None, []))
                   extract_text_with_ocr re_findall
                   argv1 argv2 argv3 (Ok stdin_data)).
Proof.
  intros Hblank Hjson.
  split.
  - intros subject_code. now apply resolve_rubric_parsed_dict.
  - intros upper ocr re_findall argv1 argv2 argv3. cbv zeta. unfold main.
    rewrite !(resolve_rubric_parsed_dict _ _ _ _ _ [] Hblank Hjson).
    split; [|reflexivity].
    intros code.
    destruct argv2 as [path|]; simpl;
      [destruct (negb (truthy (lower (strip argv1))) && truthy path);
       [destruct (ocr path)|]|];
      simpl; intuition discriminate.
Qed.

Lemma explicit_empty_rubric_honoured_witness :
  strip (lit "{}") <> []
  /\ sample_json_loads (lit "{}") = Ok (JDict [])
  /\ resolve_rubric sample_rubric sample_json_loads sample_api
       (Ok (lit "{}")) (Some (lit "CS101"))
     = ([], [])
  /\ stdout (main sample_rubric (fun s => s) sample_json_loads sample_api
               (fun _ => Raise []) (fun _ => [])
               (lit "q1 mitosis") None (Some (lit "CS101"))
               (Ok (lit "{}")))
     = DocResults [].
Proof.
  assert (Hblank : strip (lit "{}") <> []) by (vm_compute; discriminate).
  destruct (explicit_empty_rubric_honoured sample_rubric sample_json_loads
              sample_api (lit "{}") Hblank eq_refl) as [Hres Hmain].
  split; [exact Hblank|].
  split; [reflexivity|].
  split; [apply Hres|].
  destruct (Hmain (fun s => s) (fun _ => Raise []) (fun _ => [])
              (lit "q1 mitosis") None (Some (lit "CS101"))) as [_ ->].
  reflexivity.
Defined.

(** ** Trimming *)

Lemma lstrip_head (s : str) :
  lstrip s = []
  \/ exists c t, lstrip s = c :: t /\ isspace c = false.
Proof.
  induction s as [|c s IH]; simpl; [now left|].
  destruct (isspace c) eqn:E; [exact IH|].
  right. now exists c, s.
Qed.

Lemma lstrip_nil_iff (s : str) :
  lstrip s = [] <-> forallb isspace s = true.
Proof.
  induction s as [|c s IH]; simpl; [tauto|].
  destruct (isspace c); simpl; [exact IH|].
  split; discriminate.
Qed.

Lemma lstrip_app_nonspace (u w : str) (c : ascii) :
  isspace c = false -> lstrip (u ++ c :: w) = lstrip u ++ c :: w.
Proof.
  intros Hc. induction u as [|a u IH]; simpl.
  - now rewrite Hc.
  - destruct (isspace a); [exact IH|reflexivity].
Qed.

Lemma rstrip_cons_nonspace (c : ascii) (t : str) :
  isspace c = false -> rstrip (c :: t) = c :: rstrip t.
Proof.
  intros Hc. unfold rstrip. simpl rev.
  rewrite (lstrip_app_nonspace (rev t) [] c Hc), rev_app_distr. reflexivity.
Qed.

Lemma strip_head (s : str) :
  strip s = []
  \/ exists c t, strip s = c :: t /\ isspace c = false.
Proof.
  unfold strip.
  destruct (lstrip_head s) as [E|(c & t & E & Hc)]; rewrite E.
  - now left.
  - right. exists c, (rstrip t). split; [|exact Hc].
    now apply rstrip_cons_nonspace.
Qed.

Lemma strip_nil_iff (s : str) :
  strip s = [] <-> forallb isspace s = true.
Proof.
  rewrite <- lstrip_nil_iff. unfold strip. split.
  - destruct (lstrip_head s) as [E|(c & t & E & Hc)]; [tauto|].
    rewrite E, (rstrip_cons_nonspace c t Hc). discriminate.
  - intros ->. reflexivity.
Qed.

Lemma nonblank_forallb (s : str) :
  nonblank s <-> forallb isspace s = false.
Proof.
  unfold nonblank. induction s as [|c s IH]; simpl.
  - split; [intros (c & [] & _)|discriminate].
  - destruct (isspace c) eqn:E; simpl.
    + rewrite <- IH. split.
      * intros (x & [->|Hin] & Hx); [congruence|now exists x].
      * intros (x & Hin & Hx). exists x. auto.
    + split; [reflexivity|]. intros _. exists c. auto.
Qed.

Lemma strip_nonblank (s : str) : strip s <> [] <-> nonblank s.
Proof.
  rewrite nonblank_forallb, strip_nil_iff.
  destruct (forallb isspace s); split; congruence.
Qed.

Lemma strip_head_nonblank (s : str) : strip s <> [] -> nonblank (strip s).
Proof.
  intros Hne.
  destruct (strip_head s) as [E|(c & t & E & Hc)]; [contradiction|].
  rewrite E. exists c. split; [now left|exact Hc].
Qed.

Lemma strip_strip_nonempty (s : str) :
  strip s <> [] -> strip (strip s) <> [].
Proof. intros H. apply strip_nonblank. now apply strip_head_nonblank. Qed.

Lemma truthy_strip_nonblank (s : str) :
  truthy (strip s) = true <-> nonblank s.
Proof.
  rewrite <- strip_nonblank. destruct (strip s); simpl; split; congruence.
Qed.

Lemma in_slice (s : str) (a b : nat) (c : ascii) :
  In c (slice s a b) -> In c s.
Proof.
  unfold slice. intros H.
  rewrite <- (firstn_skipn a s). apply in_or_app. right.
  rewrite <- (firstn_skipn (b - a) (skipn a s)). apply in_or_app. now left.
Qed.

Lemma nonblank_chunk_text (text : str) (n idx : nat) :
  nonblank (chunk text n idx) -> nonblank text.
Proof.
  intros (c & Hin & Hc). exists c. split; [|exact Hc].
  unfold chunk in Hin. eapply in_slice; eauto.
Qed.

Lemma slice_nil (a b : nat) : slice [] a b = [].
Proof. unfold slice. now rewrite skipn_nil, firstn_nil. Qed.

(** ** Rubric-driven segmentation *)

Section SegmentFacts.
Implicit Types (d : Dict.dict str) (k : str) (ks : list str).

Lemma set_fresh d k (v : str) :
  ~ In k (Dict.keys d) -> Dict.set d k v = d ++ [(k, v)].
Proof.
  induction d as [|[k' v'] d IH]; simpl; [reflexivity|].
  intros Hnot. rewrite str_eqb_neq by tauto.
  rewrite IH by tauto. reflexivity.
Qed.

(** Setting one value per key, for keys that are pairwise distinct and
    new, appends the pairs in the order of the keys. *)
Lemma set_loop_fresh (f : str -> str) ks d :
  NoDup ks ->
  (forall k, In k ks -> ~ In k (Dict.keys d)) ->
  fold_left (fun acc k => Dict.set acc k (f k)) ks d
  = d ++ map (fun k => (k, f k)) ks.
Proof.
  revert d. induction ks as [|k ks IH]; intros d Hnd Hfresh; simpl.
  - now rewrite app_nil_r.
  - inversion Hnd as [|? ? Hk Hnd']; subst.
    rewrite set_fresh by (apply Hfresh; now left).
    rewrite IH; [now rewrite <- app_assoc|exact Hnd'|].
    intros k' Hk'. unfold Dict.keys. rewrite map_app, in_app_iff.
    intros [Hin|[<-|[]]]; [|contradiction].
    apply (Hfresh k'); [now right|exact Hin].
Qed.

Lemma loop_ext {A B} (f g : A -> B -> A) (l : list B) (a : A) :
  (forall x y, f x y = g x y) -> fold_left f l a = fold_left g l a.
Proof.
  intros Hfg. revert a.
  induction l as [|y l IH]; intros a; simpl; [reflexivity|].
  now rewrite Hfg, IH.
Qed.

Lemma fill_from_extracted_map (text : str) ks :
  NoDup ks ->
  fill_from_extracted (extract_by_rubric_keys text ks) ks
  = map (fun k => (k, first_pass text ks k)) ks.
Proof.
  intros Hnd. unfold fill_from_extracted.
  rewrite <- (app_nil_l (map _ ks)).
  rewrite <- (set_loop_fresh (first_pass text ks) ks []); auto.
  apply loop_ext. intros qa k. unfold first_pass.
  destruct (Dict.get (extract_by_rubric_keys text ks) k) as [v|];
    [destruct (truthy (strip v))|]; reflexivity.
Qed.

Lemma keys_map_pairs (f : str -> str) ks :
  Dict.keys (map (fun k => (k, f k)) ks) = ks.
Proof.
  unfold Dict.keys. rewrite map_map. simpl. apply map_id.
Qed.

Lemma get_map_pairs (f : str -> str) ks k :
  In k ks -> Dict.get (map (fun k => (k, f k)) ks) k = Some (f k).
Proof.
  induction ks as [|k' ks IH]; simpl; [tauto|].
  destruct (str_eqb k' k) eqn:E.
  - apply str_eqb_eq in E. now subst.
  - intros [->|Hin]; [now rewrite str_eqb_refl in E|auto].
Qed.

Lemma fallback_loop_keys (text : str) (n : nat)
  (l : list (nat * str)) d :
  Dict.keys (fallback_loop text n l d) = Dict.keys d.
Proof.
  revert d. induction l as [|[idx k] l IH]; intros d; simpl; [reflexivity|].
  destruct (Dict.get d k) as [v|] eqn:E; [|reflexivity].
  destruct (negb (truthy (strip v))); rewrite IH; [|reflexivity].
  rewrite keys_set. unfold Dict.mem. now rewrite E.
Qed.

(** The loop of the fallback, key by key: a key listed at offset [j]
    keeps a value that is not blank and otherwise gets its trimmed
    chunk; the other keys are left alone. *)
Lemma fallback_loop_get (text : str) (n : nat) ks :
  forall (i : nat) d,
    NoDup ks ->
    (forall k, In k ks -> Dict.get d k <> None) ->
    let d' := fallback_loop text n (combine (seq i (length ks)) ks) d in
    (forall j k v,
        nth_error ks j = Some k ->
        Dict.get d k = Some v ->
        Dict.get d' k
        = Some (if truthy (strip v) then v
                else strip (chunk text n (i + j))))
    /\ (forall k, ~ In k ks -> Dict.get d' k = Dict.get d k).
Proof.
  induction ks as [|k0 ks IH]; intros i d Hnd Hpresent; simpl.
  - split; [intros [|j] k v; discriminate|reflexivity].
  - inversion Hnd as [|? ? Hk0 Hnd']; subst.
    destruct (Dict.get d k0) as [v0|] eqn:E0;
      [|exfalso; apply (Hpresent k0); [now left|exact E0]].
    set (d1 := if negb (truthy (strip v0))
               then Dict.set d k0 (strip (chunk text n i)) else d).
    assert (Hd1 : forall k, k <> k0 -> Dict.get d1 k = Dict.get d k).
    { intros k Hne. unfold d1.
      destruct (negb (truthy (strip v0))); [|reflexivity].
      apply get_set_other. congruence. }
    assert (Hpresent1 : forall k, In k ks -> Dict.get d1 k <> None).
    { intros k Hin. rewrite Hd1 by (intros ->; contradiction).
      apply Hpresent. now right. }
    destruct (IH (S i) d1 Hnd' Hpresent1) as [IHin IHout].
    assert (Hloop :
      (if negb (truthy (strip v0))
       then fallback_loop text n (combine (seq (S i) (length ks)) ks)
              (Dict.set d k0 (strip (chunk text n i)))
       else fallback_loop text n (combine (seq (S i) (length ks)) ks) d)
      = fallback_loop text n (combine (seq (S i) (length ks)) ks) d1).
    { unfold d1. destruct (negb (truthy (strip v0))); reflexivity. }
    rewrite Hloop. split.
    + intros [|j] k v Hnth Hget; simpl in Hnth.
      * injection Hnth as <-. rewrite IHout by exact Hk0.
        rewrite E0 in Hget. injection Hget as <-.
        rewrite Nat.add_0_r. unfold d1.
        destruct (truthy (strip v0)); simpl; [exact E0|].
        apply get_set_same.
      * assert (Hin : In k ks) by (eapply nth_error_In; eauto).
        assert (Hne : k <> k0) by (intros ->; contradiction).
        rewrite (IHin j k v Hnth); [|now rewrite Hd1].
        replace (S i + j) with (i + S j) by lia. reflexivity.
    + intros k Hnot. rewrite IHout by tauto.
      apply Hd1. intros ->. apply Hnot. now left.
Qed.
End SegmentFacts.

Lemma filter_nonempty {A} (f : A -> bool) (l : list A) (x : A) :
  In x l -> f x = true -> (0 <? length (filter f l)) = true.
Proof.
  intros Hin Hx.
  assert (Hf : In x (filter f l)) by (apply filter_In; auto).
  destruct (filter f l); [contradiction|reflexivity].
Qed.

(** What the rubric-driven segmentation maps the key at index [idx] to:
    its label-pass snippet when that is not blank, and otherwise, when
    the text is not blank, its trimmed chunk. *)
Lemma segment_by_rubric_get (text : str) (ks : list str) (idx : nat)
  (k : str) :
  NoDup ks ->
  nth_error ks idx = Some k ->
  Dict.get (segment_by_rubric text ks) k
  = Some (let v := first_pass text ks k in
          if truthy (strip v) then v
          else if truthy (strip text)
               then strip (chunk text (length ks) idx)
               else v).
Proof.
  intros Hnd Hnth.
  assert (Hin : In k ks) by (eapply nth_error_In; eauto).
  unfold segment_by_rubric. rewrite (fill_from_extracted_map text ks Hnd).
  set (qa := map (fun k => (k, first_pass text ks k)) ks).
  assert (Hget : Dict.get qa k = Some (first_pass text ks k))
    by (apply get_map_pairs; exact Hin).
  unfold chunk_fallback, Dict.items.
  destruct ((0 <? length
               (filter (fun kv => negb (truthy (strip (snd kv)))) qa))
            && truthy (strip text)) eqn:Econd.
  - apply andb_true_iff in Econd. destruct Econd as [_ Etext].
    rewrite Etext. unfold enumerate.
    destruct (fallback_loop_get text (length ks) ks 0 qa Hnd) as [Hloop _].
    + intros k' Hk'. unfold qa. now rewrite get_map_pairs.
    + rewrite (Hloop idx k _ Hnth Hget). reflexivity.
  - rewrite Hget. cbv zeta.
    destruct (truthy (strip (first_pass text ks k))) eqn:Ev; [reflexivity|].
    destruct (truthy (strip text)) eqn:Etext; [|reflexivity].
    rewrite andb_true_r in Econd.
    rewrite (filter_nonempty _ qa (k, first_pass text ks k)) in Econd;
      [discriminate| |simpl; now rewrite Ev].
    unfold qa. apply in_map_iff. now exists k.
Qed.

Lemma segment_by_rubric_keys (text : str) (ks : list str) :
  NoDup ks -> Dict.keys (segment_by_rubric text ks) = ks.
Proof.
  intros Hnd. unfold segment_by_rubric.
  rewrite (fill_from_extracted_map text ks Hnd).
  unfold chunk_fallback.
  match goal with |- context [if ?c then _ else _] => destruct c end.
  - rewrite fallback_loop_keys. apply keys_map_pairs.
  - apply keys_map_pairs.
Qed.


(** A key whose chunk has a character that is not whitespace ends with a
    snippet that is neither empty nor whitespace-only. *)
Lemma segment_nonblank_of_chunk (text : str) (ks : list str) (idx : nat)
  (k : str) :
  NoDup ks ->
  nth_error ks idx = Some k ->
  nonblank (chunk text (length ks) idx) ->
  exists v, Dict.get (segment_by_rubric text ks) k = Some v
            /\ v <> [] /\ strip v <> [].
Proof.
  intros Hnd Hnth Hchunk.
  rewrite (segment_by_rubric_get text ks idx k Hnd Hnth). cbv zeta.
  assert (Htext : truthy (strip text) = true).
  { apply truthy_strip_nonblank. eapply nonblank_chunk_text; eauto. }
  rewrite Htext. eexists. split; [reflexivity|].
  destruct (truthy (strip (first_pass text ks k))) eqn:Ev.
  - apply truthy_nonempty in Ev. split; [|exact Ev].
    intros E. rewrite E in Ev. now apply Ev.
  - apply strip_nonblank in Hchunk. split; [exact Hchunk|].
    now apply strip_strip_nonempty.
Qed.

(** When the text has at least as many characters as there are keys,
    every chunk has at least one character. *)
Lemma chunk_nonempty (text : str) (n idx : nat) :
  idx < n -> n <= length text -> chunk text n idx <> [].
Proof.
  intros Hidx Hlen. unfold chunk, slice.
  set (L := length text) in *.
  assert (Hq : 1 <= L / n) by (apply Nat.div_le_lower_bound; lia).
  assert (Hm : n * (L / n) <= L) by (apply Nat.Div0.mul_div_le).
  rewrite (Nat.max_r 1 (L / n)) by exact Hq.
  intros E. apply (f_equal (@length ascii)) in E.
  rewrite length_firstn, length_skipn in E. fold L in E. simpl in E.
  destruct (idx <? n - 1) eqn:Elast.
  - apply Nat.ltb_lt in Elast. nia.
  - apply Nat.ltb_ge in Elast.
    assert (idx = n - 1) by lia. subst idx. nia.
Qed.

(** So on a text without whitespace that is at least as long as the
    rubric, the segmentation leaves no key with an empty snippet. *)
Lemma segment_dense_text_nonempty (text : str) (ks : list str) :
  NoDup ks ->
  length ks <= length text ->
  (forall c, In c text -> isspace c = false) ->
  forall k, In k ks ->
    exists v, Dict.get (segment_by_rubric text ks) k = Some v
              /\ v <> [] /\ strip v <> [].
Proof.
  intros Hnd Hlen Hdense k Hin.
  destruct (In_nth_error ks k Hin) as [idx Hnth].
  apply (segment_nonblank_of_chunk text ks idx k Hnd Hnth).
  assert (Hidx : idx < length ks)
    by (apply nth_error_Some; congruence).
  pose proof (chunk_nonempty text (length ks) idx Hidx Hlen) as Hne.
  destruct (chunk text (length ks) idx) as [|c rest] eqn:E;
    [contradiction|].
  exists c. split; [now left|].
  apply Hdense. apply (in_slice text
    (idx * Nat.max 1 (length text / length ks))
    (if idx <? length ks - 1
     then (idx + 1) * Nat.max 1 (length text / length ks)
     else length text)).
  change (In c (chunk text (length ks) idx)). rewrite E. now left.
Qed.

(** C1 (as amended).  For every text and every list of distinct rubric
    keys, after the equal-size-chunk fallback the key at index [idx] is
    mapped to a snippet that is neither empty nor whitespace-only
    whenever its chunk -- [chunk_size = max 1 (len text / n)] characters
    from [idx * chunk_size], up to the end of the text for the last key
    -- has a character that is not whitespace; and a key whose label pass
    gave nothing and whose chunk is empty or whitespace-only is mapped to
    the empty str. *)
Theorem chunk_fallback_nonempty (text : str) (ks : list str) (idx : nat)
  (k : str) :
  NoDup ks ->
  nth_error ks idx = Some k ->
  (nonblank (chunk text (length ks) idx) ->
   exists v, Dict.get (segment_by_rubric text ks) k = Some v
             /\ v <> [] /\ strip v <> [])
  /\ (first_pass text ks k = [] ->
      ~ nonblank (chunk text (length ks) idx) ->
      Dict.get (segment_by_rubric text ks) k = Some []).
Proof.
  intros Hnd Hnth. split.
  - now apply segment_nonblank_of_chunk.
  - intros Hfirst Hchunk.
    rewrite (segment_by_rubric_get text ks idx k Hnd Hnth). cbv zeta.
    rewrite Hfirst. simpl.
    destruct (truthy (strip text)); [|reflexivity].
    f_equal.
    destruct (strip (chunk text (length ks) idx)) eqn:E; [reflexivity|].
    exfalso. apply Hchunk. apply strip_nonblank. rewrite E. discriminate.
Qed.

Lemma chunk_fallback_nonempty_witness :
  NoDup three_keys
  /\ nth_error three_keys 2 = Some (lit "Q3")
  /\ nonblank (chunk (lit "abcdefgh") (length three_keys) 2)
  /\ exists v,
       Dict.get (segment_by_rubric (lit "abcdefgh") three_keys) (lit "Q3")
       = Some v
       /\ v <> [] /\ strip v <> [].
Proof.
  assert (Hnd : NoDup three_keys).
  { unfold three_keys. repeat constructor; cbn; intuition discriminate. }
  assert (Hchunk : nonblank (chunk (lit "abcdefgh") (length three_keys) 2)).
  { exists (ascii_of_nat 101). split; [vm_compute; tauto|reflexivity]. }
  split; [exact Hnd|].
  split; [reflexivity|].
  split; [exact Hchunk|].
  exact (proj1 (chunk_fallback_nonempty (lit "abcdefgh") three_keys 2
                  (lit "Q3") Hnd eq_refl) Hchunk).
Defined.

(** C1, as stated, fails: with three keys and the text "ab" no label is
    found, the chunk size is max 1 (2 / 3) = 1, and the last key gets the
    chunk from index 2 to the end of the text, which is empty. *)
Lemma chunk_fallback_counterexample :
  lit "ab" <> [] /\ strip (lit "ab") <> [] /\ three_keys <> []
  /\ Dict.get (segment_by_rubric (lit "ab") three_keys) (lit "Q3") = Some []
  /\ ~ (forall k, In k three_keys ->
          exists v,
            Dict.get (segment_by_rubric (lit "ab") three_keys) k = Some v
            /\ strip v <> []).
Proof.
  assert (E : Dict.get (segment_by_rubric (lit "ab") three_keys) (lit "Q3")
              = Some []) by (vm_compute; reflexivity).
  split; [vm_compute; discriminate|].
  split; [vm_compute; discriminate|].
  split; [discriminate|].
  split; [exact E|].
  intros H. destruct (H (lit "Q3")) as (v & Hv & Hne).
  - cbn. tauto.
  - rewrite E in Hv. injection Hv as Hv. subst v. now apply Hne.
Qed.

(** ** One result per rubric key *)

Lemma slice_answers_nil_text (positions : list Anchor) :
  forall answers : Dict.dict str,
    (forall k v, Dict.get answers k = Some v -> v = []) ->
    forall k v,
      Dict.get (slice_answers [] positions answers) k = Some v -> v = [].
Proof.
  induction positions as [|[[pos label] key] rest IH];
    intros answers Hall k v; simpl.
  - apply Hall.
  - apply IH. intros k' v'. rewrite slice_nil. change (strip []) with (@nil ascii).
    destruct (list_eq_dec ascii_dec key k') as [->|Hne].
    + rewrite get_set_same. congruence.
    + rewrite get_set_other by exact Hne. apply Hall.
Qed.

Lemma first_pass_nil_text (ks : list str) (k : str) :
  first_pass [] ks k = [].
Proof.
  unfold first_pass.
  destruct (Dict.get (extract_by_rubric_keys [] ks) k) as [v|] eqn:E;
    [|reflexivity].
  unfold extract_by_rubric_keys in E.
  apply slice_answers_nil_text in E; [|discriminate].
  now subst v.
Qed.

Lemma segment_by_rubric_nil_text (ks : list str) :
  NoDup ks -> segment_by_rubric [] ks = map (fun k => (k, [])) ks.
Proof.
  intros Hnd. unfold segment_by_rubric.
  rewrite (fill_from_extracted_map [] ks Hnd).
  unfold chunk_fallback. change (truthy (strip [])) with false.
  rewrite andb_false_r.
  apply map_ext. intros k. now rewrite first_pass_nil_text.
Qed.

Lemma contains_nil_r (t : str) : contains t [] = true -> t = [].
Proof. destruct t; [reflexivity|discriminate]. Qed.

Lemma lower_nil_inv (s : str) : lower s = [] -> s = [].
Proof. destruct s; [reflexivity|discriminate]. Qed.

Lemma no_keyword_in_empty_answer (kws : list str) :
  ~ In [] kws -> filter (keyword_present []) kws = [].
Proof.
  induction kws as [|kw kws IH]; simpl; [reflexivity|].
  intros Hnot. unfold keyword_present at 1.
  destruct (contains (lower kw) (lower [])) eqn:E.
  - apply contains_nil_r, lower_nil_inv in E. subst kw. tauto.
  - apply IH. tauto.
Qed.

Open Scope Z_scope.

(** The score of the empty answer under any rule. *)
Lemma score_entry_empty_answer (rule : GradingRule) (qid : str) :
  let r := score_entry rule qid [] in
  bd_definition (breakdown r) = 0%Z
  /\ bd_explanation (breakdown r) = 0%Z
  /\ suggested_marks r = bd_keywords (breakdown r)
  /\ ((0 <= rule_get (keyword_marks rule) 0)%Z ->
      ~ In [] (rule_get (keywords rule) []) ->
      r = mkResult qid 0 (rule_get (max_marks rule) 10) (mkBreakdown 0 0 0)).
Proof.
  cbv zeta.
  repeat split; try reflexivity.
  intros Hkm Hkws. unfold score_entry.
  rewrite keyword_count_filter, (no_keyword_in_empty_answer _ Hkws).
  change (length (strip [])) with 0%nat.
  change (length (split [])) with 0%nat.
  cbn.
  replace (Z.min 0 (rule_get (keyword_marks rule) 0)) with 0%Z by lia.
  reflexivity.
Qed.

Section EvaluateFacts.
Variable re_findall : str -> list (str * str).

Lemma segment_rubric_keys (rubric : Rubric) (text : str) :
  rubric <> [] ->
  segment re_findall rubric text
  = segment_by_rubric text (Dict.keys rubric).
Proof.
  intros Hne. unfold segment.
  destruct rubric; [contradiction|reflexivity].
Qed.

Lemma evaluate_questions (rubric : Rubric) (text : str) :
  Dict.wf rubric -> rubric <> [] ->
  map question (evaluate re_findall rubric text) = Dict.keys rubric.
Proof.
  intros Hwf Hne. unfold evaluate.
  rewrite score_all_questions, segment_rubric_keys by exact Hne.
  now apply segment_by_rubric_keys.
Qed.

Lemma evaluate_nil_text (rubric : Rubric) :
  Dict.wf rubric -> rubric <> [] ->
  evaluate re_findall rubric []
  = map (fun kv => score_entry (snd kv) (fst kv) []) rubric.
Proof.
  intros Hwf Hne. unfold evaluate.
  rewrite segment_rubric_keys by exact Hne.
  rewrite segment_by_rubric_nil_text by exact Hwf.
  rewrite score_all_map. unfold Dict.keys. rewrite !map_map.
  apply map_ext_in. intros [k rule] Hin. simpl.
  unfold Dict.get_or. now rewrite (in_get rubric k rule Hwf Hin).
Qed.
End EvaluateFacts.

(** C9 (as amended).  Whenever the effective rubric has at least one
    key, the results have exactly one entry per rubric key, in the order
    of the rubric's keys, for every text.  On the empty text every key
    is scored on the empty snippet under its own rule: definition and
    explanation are 0 and suggested_marks is the keywords score, and the
    entry is all-zero when the rule's keyword_marks is not negative and
    none of its keywords is the empty str. *)
Theorem one_result_per_rubric_key (re_findall : str -> list (str * str))
  (rubric : Rubric) (text : str) :
  Dict.wf rubric ->
  rubric <> [] ->
  map question (evaluate re_findall rubric text) = Dict.keys rubric
  /\ NoDup (map question (evaluate re_findall rubric text))
  /\ evaluate re_findall rubric []
     = map (fun kv => score_entry (snd kv) (fst kv) []) rubric
  /\ (forall r, In r (evaluate re_findall rubric []) ->
        bd_definition (breakdown r) = 0%Z
        /\ bd_explanation (breakdown r) = 0%Z
        /\ suggested_marks r = bd_keywords (breakdown r))
  /\ (forall k rule, In (k, rule) rubric ->
        (0 <= rule_get (keyword_marks rule) 0)%Z ->
        ~ In [] (rule_get (keywords rule) []) ->
        In (mkResult k 0 (rule_get (max_marks rule) 10) (mkBreakdown 0 0 0))
          (evaluate re_findall rubric [])).
Proof.
  intros Hwf Hne.
  pose proof (evaluate_questions re_findall rubric text Hwf Hne) as Hq.
  pose proof (evaluate_nil_text re_findall rubric Hwf Hne) as Hnil.
  split; [exact Hq|].
  split; [rewrite Hq; exact Hwf|].
  split; [exact Hnil|].
  split.
  - intros r Hin. rewrite Hnil in Hin. apply in_map_iff in Hin.
    destruct Hin as ([k rule] & <- & _). simpl.
    destruct (score_entry_empty_answer rule k) as (Hd & He & Hs & _).
    auto.
  - intros k rule Hin Hkm Hkws. rewrite Hnil. apply in_map_iff.
    exists (k, rule). split; [|exact Hin]. simpl.
    now apply score_entry_empty_answer.
Qed.

Lemma one_result_per_rubric_key_witness :
  Dict.wf sample_rubric
  /\ sample_rubric <> []
  /\ map question (evaluate (fun _ => []) sample_rubric mitosis_answer)
     = Dict.keys sample_rubric
  /\ evaluate (fun _ => []) sample_rubric []
     = map (fun kv => score_entry (snd kv) (fst kv) []) sample_rubric.
Proof.
  assert (Hwf : Dict.wf sample_rubric).
  { unfold Dict.wf. cbn. repeat constructor. cbn. tauto. }
  assert (Hne : sample_rubric <> []) by discriminate.
  destruct (one_result_per_rubric_key (fun _ => []) sample_rubric
              mitosis_answer Hwf Hne) as (H1 & _ & H3 & _).
  repeat split; assumption.
Defined.

(** C9, as stated, fails on the empty text for a rule that lists the
    empty keyword: the empty str occurs in the empty answer, so the
    keywords score is min (2, 4) = 2 and the entry is not all-zero. *)
Lemma empty_text_not_all_zero :
  Dict.wf empty_keyword_rubric
  /\ empty_keyword_rubric <> []
  /\ evaluate (fun _ => []) empty_keyword_rubric []
     = [mkResult (lit "Q1") 2 10 (mkBreakdown 0 2 0)]
  /\ ~ (forall r, In r (evaluate (fun _ => []) empty_keyword_rubric []) ->
          breakdown r = mkBreakdown 0 0 0).
Proof.
  assert (E : evaluate (fun _ => []) empty_keyword_rubric []
              = [mkResult (lit "Q1") 2 10 (mkBreakdown 0 2 0)])
    by (vm_compute; reflexivity).
  split; [unfold Dict.wf; cbn; repeat constructor; cbn; tauto|].
  split; [discriminate|].
  split; [exact E|].
  intros H. rewrite E in H.
  specialize (H _ (or_introl eq_refl)). discriminate H.
Qed.

Close Scope Z_scope.

(* ================================================================== *)
(** * Further properties of the code *)
(* ================================================================== *)

(** ** Characters *)

Lemma lower_char_idempotent (c : ascii) :
  lower_char (lower_char c) = lower_char c.
Proof. destruct c as [[] [] [] [] [] [] [] []]; reflexivity. Qed.


Lemma kept_lower_char (c : ascii) : kept (lower_char c) = kept c.
Proof. destruct c as [[] [] [] [] [] [] [] []]; reflexivity. Qed.


(** ** Substrings and trimming *)

Lemma substring_refl (s : str) : substring_of s s.
Proof. exists [], []. now rewrite app_nil_r. Qed.

Lemma substring_trans (u v s : str) :
  substring_of u v -> substring_of v s -> substring_of u s.
Proof.
  intros (p & q & ->) (p' & q' & ->).
  exists (p' ++ p), (q ++ q'). now rewrite <- !app_assoc.
Qed.

Lemma substring_in (v s : str) (c : ascii) :
  substring_of v s -> In c v -> In c s.
Proof.
  intros (p & q & ->) Hin. rewrite !in_app_iff. tauto.
Qed.

Lemma substring_length (v s : str) :
  substring_of v s -> length v <= length s.
Proof. intros (p & q & ->). rewrite !length_app. lia. Qed.

Lemma lstrip_suffix (s : str) :
  exists p, s = p ++ lstrip s /\ forallb isspace p = true.
Proof.
  induction s as [|c s (p & Hp & Hsp)]; simpl.
  - now exists [].
  - destruct (isspace c) eqn:E.
    + exists (c :: p). simpl. rewrite E, Hsp. split; [congruence|reflexivity].
    + now exists [].
Qed.

Lemma rstrip_prefix (s : str) :
  exists q, s = rstrip s ++ q /\ forallb isspace q = true.
Proof.
  destruct (lstrip_suffix (rev s)) as (p & Hp & Hsp).
  exists (rev p). split.
  - unfold rstrip. rewrite <- rev_app_distr, <- Hp. now rewrite rev_involutive.
  - rewrite forallb_forall in *. intros c Hc. apply Hsp.
    now apply in_rev.
Qed.

Lemma strip_substring (s : str) : substring_of (strip s) s.
Proof.
  destruct (lstrip_suffix s) as (p & Hp & _).
  destruct (rstrip_prefix (lstrip s)) as (q & Hq & _).
  exists p, q. unfold strip. now rewrite <- Hq.
Qed.

Lemma slice_substring (s : str) (a b : nat) : substring_of (slice s a b) s.
Proof.
  exists (firstn a s), (skipn (b - a) (skipn a s)). unfold slice.
  now rewrite firstn_skipn, firstn_skipn.
Qed.

Lemma lstrip_lstrip (s : str) : lstrip (lstrip s) = lstrip s.
Proof.
  destruct (lstrip_head s) as [->|(c & t & -> & Hc)]; [reflexivity|].
  simpl. now rewrite Hc.
Qed.

Lemma strip_strip (s : str) : strip (strip s) = strip s.
Proof.
  assert (Hl : lstrip (strip s) = strip s).
  { destruct (strip_head s) as [->|(c & t & -> & Hc)]; [reflexivity|].
    simpl. now rewrite Hc. }
  unfold strip at 1. rewrite Hl. unfold strip, rstrip.
  now rewrite rev_involutive, lstrip_lstrip.
Qed.

(** ** Text normalizer: what the output looks like *)

Lemma squeeze_step (c x : ascii) (rest : str) :
  squeeze c (x :: rest)
  = if (if ascii_dec x c then head_is c rest else false)
    then squeeze c rest else x :: squeeze c rest.
Proof.
  simpl. destruct (ascii_dec x c); [|reflexivity].
  destruct rest as [|y r]; [reflexivity|].
  simpl. destruct (ascii_dec y c); reflexivity.
Qed.

Lemma squeeze_in (c x : ascii) (s : str) : In x (squeeze c s) -> In x s.
Proof.
  induction s as [|y rest IH]; [tauto|].
  rewrite squeeze_step.
  destruct (if ascii_dec y c then head_is c rest else false);
    simpl; intuition.
Qed.

Lemma squeeze_length (c : ascii) (s : str) :
  length (squeeze c s) <= length s.
Proof.
  induction s as [|y rest IH]; [simpl; lia|].
  rewrite squeeze_step.
  destruct (if ascii_dec y c then head_is c rest else false); simpl; lia.
Qed.

Lemma head_is_squeeze (c d : ascii) (s : str) :
  head_is d (squeeze c s) = head_is d s.
Proof.
  induction s as [|y rest IH]; [reflexivity|].
  rewrite squeeze_step.
  destruct (ascii_dec y c) as [->|Hne]; [|reflexivity].
  destruct (head_is c rest) eqn:E; [|reflexivity].
  rewrite IH. destruct rest as [|z r]; [discriminate|].
  simpl in *. destruct (ascii_dec z c) as [->|]; [reflexivity|discriminate].
Qed.

Lemma has_run_squeeze_same (c : ascii) (s : str) :
  has_run c (squeeze c s) = false.
Proof.
  induction s as [|y rest IH]; [reflexivity|].
  rewrite squeeze_step.
  destruct (ascii_dec y c) as [->|Hne].
  - destruct (head_is c rest) eqn:E; [exact IH|].
    simpl. destruct (ascii_dec c c); [|contradiction].
    now rewrite head_is_squeeze, E, IH.
  - simpl. destruct (ascii_dec y c); [contradiction|]. exact IH.
Qed.

Lemma has_run_squeeze_other (c d : ascii) (s : str) :
  has_run d s = false -> has_run d (squeeze c s) = false.
Proof.
  induction s as [|y rest IH]; [reflexivity|].
  intros H. simpl in H. apply orb_false_iff in H. destruct H as [Hy Hrest].
  rewrite squeeze_step.
  destruct (if ascii_dec y c then head_is c rest else false); [auto|].
  simpl. rewrite head_is_squeeze, IH by exact Hrest.
  now rewrite Hy.
Qed.

Lemma squeeze_no_run (c : ascii) (s : str) :
  has_run c s = false -> squeeze c s = s.
Proof.
  induction s as [|y rest IH]; [reflexivity|].
  intros H. simpl in H. apply orb_false_iff in H. destruct H as [Hy Hrest].
  rewrite squeeze_step, Hy, IH by exact Hrest. reflexivity.
Qed.

Lemma has_run_app_l (d : ascii) (p q : str) :
  has_run d (p ++ q) = false -> has_run d p = false.
Proof.
  induction p as [|x p IH]; [reflexivity|].
  simpl. intros H. apply orb_false_iff in H. destruct H as [Hx Hrest].
  rewrite (IH Hrest), orb_false_r.
  destruct (ascii_dec x d); [|reflexivity].
  destruct p; [reflexivity|exact Hx].
Qed.

Lemma has_run_app_r (d : ascii) (p q : str) :
  has_run d (p ++ q) = false -> has_run d q = false.
Proof.
  induction p as [|x p IH]; [tauto|].
  simpl. intros H. apply orb_false_iff in H. now apply IH.
Qed.

Lemma has_run_substring (d : ascii) (v s : str) :
  substring_of v s -> has_run d s = false -> has_run d v = false.
Proof.
  intros (p & q & ->) H.
  apply has_run_app_r in H. now apply has_run_app_l in H.
Qed.

Lemma filter_fixed {A} (f : A -> bool) (l : list A) :
  (forall x, In x l -> f x = true) -> filter f l = l.
Proof.
  induction l as [|x l IH]; intros H; simpl; [reflexivity|].
  rewrite (H x (or_introl eq_refl)), IH; [reflexivity|].
  intros y Hy. apply H. now right.
Qed.

Lemma lower_fixed (s : str) :
  (forall c, In c s -> lower_char c = c) -> lower s = s.
Proof.
  induction s as [|x s IH]; intros H; simpl; [reflexivity|].
  rewrite (H x (or_introl eq_refl)), IH; [reflexivity|].
  intros y Hy. apply H. now right.
Qed.

(** Every character of the normalized text is a lower-cased character
    that the garbage filter keeps. *)
Lemma clean_ocr_text_chars (text : str) (c : ascii) :
  In c (clean_ocr_text text) -> kept c = true /\ lower_char c = c.
Proof.
  unfold clean_ocr_text. intros Hin.
  apply (substring_in _ _ c (strip_substring _)) in Hin.
  apply filter_In in Hin. destruct Hin as [Hin Hkept].
  split; [exact Hkept|].
  apply squeeze_in, squeeze_in in Hin.
  unfold lower in Hin. apply in_map_iff in Hin.
  destruct Hin as (x & <- & _). apply lower_char_idempotent.
Qed.

(** A text that is lower-case, without garbage, without runs of newlines
    or of spaces, and trimmed is left as it is. *)
Lemma clean_ocr_text_fixed (y : str) :
  (forall c, In c y -> kept c = true /\ lower_char c = c) ->
  has_run newline y = false ->
  has_run space y = false ->
  strip y = y ->
  clean_ocr_text y = y.
Proof.
  intros Hchars Hnl Hsp Hstrip. unfold clean_ocr_text.
  rewrite lower_fixed by (intros c Hc; now apply Hchars).
  rewrite (squeeze_no_run newline y Hnl), (squeeze_no_run space y Hsp).
  rewrite filter_fixed by (intros c Hc; now apply Hchars).
  exact Hstrip.
Qed.

(** On a text without garbage symbols the collapse of the runs is not
    undone by the filter, so the output has no run left. *)
Lemma clean_ocr_text_no_runs (text : str) :
  (forall c, In c text -> kept c = true) ->
  has_run newline (clean_ocr_text text) = false
  /\ has_run space (clean_ocr_text text) = false.
Proof.
  intros Hkept. unfold clean_ocr_text.
  set (w := squeeze space (squeeze newline (lower text))).
  assert (Hw : filter kept w = w).
  { apply filter_fixed. intros c Hc. unfold w in Hc.
    apply squeeze_in, squeeze_in in Hc.
    unfold lower in Hc. apply in_map_iff in Hc.
    destruct Hc as (x & <- & Hx). rewrite kept_lower_char. now apply Hkept. }
  rewrite Hw.
  split; apply (has_run_substring _ _ _ (strip_substring w)); unfold w.
  - apply has_run_squeeze_other, has_run_squeeze_same.
  - apply has_run_squeeze_same.
Qed.

Lemma filter_length_bound {A} (f : A -> bool) (l : list A) :
  length (filter f l) <= length l.
Proof.
  induction l as [|x l IH]; simpl; [lia|].
  destruct (f x); simpl; lia.
Qed.

(** X1.  The output of [clean_ocr_text] consists of lower-cased
    characters that the garbage filter keeps, has no leading or trailing
    whitespace (trimming it again changes nothing), and is never longer
    than the input. *)
Theorem clean_ocr_text_output_shape (text : str) :
  (forall c, In c (clean_ocr_text text) ->
     kept c = true /\ lower_char c = c)
  /\ strip (clean_ocr_text text) = clean_ocr_text text
  /\ length (clean_ocr_text text) <= length text.
Proof.
  split; [intros c; apply clean_ocr_text_chars|].
  split; [unfold clean_ocr_text; apply strip_strip|].
  unfold clean_ocr_text.
  etransitivity; [apply substring_length, strip_substring|].
  etransitivity; [apply filter_length_bound|].
  etransitivity; [apply squeeze_length|].
  etransitivity; [apply squeeze_length|].
  unfold lower. now rewrite length_map.
Qed.

Lemma clean_ocr_text_idempotent_kept (text : str) :
  (forall c, In c text -> kept c = true) ->
  clean_ocr_text (clean_ocr_text text) = clean_ocr_text text.
Proof.
  intros Hkept.
  destruct (clean_ocr_text_no_runs text Hkept) as [Hnl Hsp].
  apply clean_ocr_text_fixed; auto.
  - intros c. apply clean_ocr_text_chars.
  - unfold clean_ocr_text. apply strip_strip.
Qed.

(** X2.  On a text without garbage symbols (every character is a word
    character, whitespace or one of [. ) ( : -]) the normalizer is
    idempotent. *)
Theorem clean_ocr_text_idempotent_without_garbage (text : str) :
  (forall c, In c text -> kept c = true) ->
  clean_ocr_text (clean_ocr_text text) = clean_ocr_text text.
Proof. apply clean_ocr_text_idempotent_kept. Qed.

Lemma clean_ocr_text_idempotent_without_garbage_witness :
  (forall c, In c (lit "  Q1:  Cell   Division ") -> kept c = true)
  /\ clean_ocr_text (clean_ocr_text (lit "  Q1:  Cell   Division "))
     = clean_ocr_text (lit "  Q1:  Cell   Division ").
Proof.
  assert (H : forall c, In c (lit "  Q1:  Cell   Division ") ->
                        kept c = true).
  { apply (proj1 (forallb_forall kept (lit "  Q1:  Cell   Division "))).
    reflexivity. }
  split; [exact H|].
  exact (clean_ocr_text_idempotent_without_garbage _ H).
Defined.

(** X3.  A second pass of the normalizer always reaches a fixed point:
    normalizing three times gives what normalizing twice gives, for
    every text. *)
Theorem clean_ocr_text_twice_is_fixed (text : str) :
  clean_ocr_text (clean_ocr_text (clean_ocr_text text))
  = clean_ocr_text (clean_ocr_text text).
Proof.
  apply clean_ocr_text_idempotent_kept.
  intros c Hc. now apply clean_ocr_text_chars in Hc.
Qed.

(** ** Scorer: words, trimmed length and letter case *)

Lemma nonspace_count_app (p q : str) :
  nonspace_count (p ++ q) = nonspace_count p + nonspace_count q.
Proof. unfold nonspace_count. now rewrite filter_app, length_app. Qed.

Lemma nonspace_count_blank (p : str) :
  forallb isspace p = true -> nonspace_count p = 0.
Proof.
  unfold nonspace_count. induction p as [|c p IH]; simpl; [reflexivity|].
  intros H. apply andb_true_iff in H. destruct H as [Hc Hp].
  rewrite Hc. simpl. auto.
Qed.

Lemma nonspace_count_length (s : str) : nonspace_count s <= length s.
Proof. apply filter_length_bound. Qed.

Lemma nonspace_count_strip (s : str) :
  nonspace_count (strip s) = nonspace_count s.
Proof.
  destruct (lstrip_suffix s) as (p & Hp & Hsp).
  destruct (rstrip_prefix (lstrip s)) as (q & Hq & Hsq).
  assert (Hl : nonspace_count s = nonspace_count (p ++ lstrip s))
    by (now rewrite <- Hp).
  assert (Hr : nonspace_count (lstrip s)
               = nonspace_count (rstrip (lstrip s) ++ q))
    by (now rewrite <- Hq).
  rewrite nonspace_count_app in Hl, Hr.
  rewrite (nonspace_count_blank p Hsp) in Hl.
  rewrite (nonspace_count_blank q Hsq) in Hr.
  unfold strip. lia.
Qed.

Lemma split_aux_length (s cur : str) :
  length (split_aux cur s)
  <= (match cur with [] => 0 | _ => 1 end) + nonspace_count s.
Proof.
  revert cur. induction s as [|c s IH]; intros cur.
  - destruct cur; simpl; lia.
  - unfold nonspace_count in *. simpl.
    destruct (isspace c) eqn:E; simpl.
    + destruct cur; simpl; [apply (IH [])|].
      specialize (IH []). simpl in IH. lia.
    + specialize (IH (c :: cur)). simpl in IH. destruct cur; lia.
Qed.

Lemma words_le_trimmed_length (answer_text : str) :
  length (split answer_text) <= length (strip answer_text).
Proof.
  unfold split.
  etransitivity; [apply (split_aux_length answer_text [])|].
  simpl. rewrite <- nonspace_count_strip. apply nonspace_count_length.
Qed.

(** X4.  An answer has at most as many whitespace-delimited words as its
    trimmed text has characters, so whenever the explanation marks are
    awarded (more than 15 words) the definition marks are awarded too
    (more than 10 characters). *)
Theorem explanation_implies_definition (rule : GradingRule)
  (qid answer_text : str) :
  length (split answer_text) <= length (strip answer_text)
  /\ ((15 <? length (split answer_text)) = true ->
      bd_explanation (breakdown (score_entry rule qid answer_text))
      = rule_get (explanation_marks rule) 0%Z
      /\ bd_definition (breakdown (score_entry rule qid answer_text))
         = rule_get (definition_marks rule) 0%Z).
Proof.
  pose proof (words_le_trimmed_length answer_text) as Hle.
  split; [exact Hle|].
  intros Hwords.
  destruct (score_entry_fields rule qid answer_text) as (Hd & _ & He & _).
  cbv zeta in Hd, He. rewrite Hd, He, Hwords.
  apply Nat.ltb_lt in Hwords.
  assert (Hlen : (10 <? length (strip answer_text)) = true)
    by (apply Nat.ltb_lt; lia).
  now rewrite Hlen.
Qed.

Lemma explanation_implies_definition_witness :
  (15 <? length (split mitosis_answer)) = true
  /\ bd_definition (breakdown (score_entry mitosis_rule (lit "Q1")
                                 mitosis_answer)) = 3%Z.
Proof.
  split; [reflexivity|].
  exact (proj2 (proj2 (explanation_implies_definition mitosis_rule (lit "Q1")
                         mitosis_answer) eq_refl)).
Defined.







(** X6.  The keywords score never exceeds [keyword_marks], however many
    keywords are present, nor two marks per listed keyword, and it is at
    least min (0, keyword_marks). *)
Theorem keywords_score_bounds (rule : GradingRule) (qid answer_text : str) :
  (Z.min 0 (rule_get (keyword_marks rule) 0)
   <= bd_keywords (breakdown (score_entry rule qid answer_text))
   <= rule_get (keyword_marks rule) 0)%Z
  /\ (bd_keywords (breakdown (score_entry rule qid answer_text))
      <= 2 * Z.of_nat (length (rule_get (keywords rule) [])))%Z.
Proof.
  destruct (score_entry_fields rule qid answer_text) as (_ & Hk & _).
  cbv zeta in Hk. rewrite Hk.
  pose proof (filter_length_bound (keyword_present answer_text)
                (rule_get (keywords rule) [])) as Hle.
  lia.
Qed.

(** ** Label pass: the snippets and the keys that get one *)

Lemma get_keys {V} (d : Dict.dict V) (k : str) (v : V) :
  Dict.get d k = Some v -> In k (Dict.keys d).
Proof.
  induction d as [|[k' v'] d IH]; simpl; [discriminate|].
  destruct (str_eqb k' k) eqn:E.
  - intros _. left. now apply str_eqb_eq.
  - intros H. right. auto.
Qed.

Lemma mem_keys {V} (d : Dict.dict V) (k : str) :
  Dict.mem d k = true <-> In k (Dict.keys d).
Proof.
  rewrite mem_existsb, existsb_exists. split.
  - intros (k' & Hin & E). apply str_eqb_eq in E. now subst.
  - intros Hin. exists k. split; [exact Hin|apply str_eqb_refl].
Qed.

Lemma mem_set {V} (d : Dict.dict V) (k k' : str) (v : V) :
  Dict.mem (Dict.set d k v) k' = str_eqb k k' || Dict.mem d k'.
Proof.
  unfold Dict.mem.
  destruct (list_eq_dec ascii_dec k k') as [->|Hne].
  - now rewrite get_set_same, str_eqb_refl.
  - now rewrite get_set_other, str_eqb_neq.
Qed.

(** A property of every trimmed slice of the text holds of every value
    the slicing loop stores. *)
Lemma slice_answers_values (P : str -> Prop) (text : str) :
  (forall a b, P (strip (slice text a b))) ->
  forall (positions : list Anchor) (answers : Dict.dict str),
    (forall k v, Dict.get answers k = Some v -> P v) ->
    forall k v,
      Dict.get (slice_answers text positions answers) k = Some v -> P v.
Proof.
  intros HP positions.
  induction positions as [|[[pos label] key] rest IH];
    intros answers Hall k v; simpl; [apply Hall|].
  apply IH. intros k' v'.
  destruct (list_eq_dec ascii_dec key k') as [->|Hne].
  - rewrite get_set_same. intros [= <-]. apply HP.
  - rewrite get_set_other by exact Hne. apply Hall.
Qed.

Lemma slice_answers_mem (text : str) (positions : list Anchor) :
  forall (answers : Dict.dict str) (k : str),
    Dict.mem (slice_answers text positions answers) k
    = Dict.mem answers k
      || existsb (fun a : Anchor => str_eqb (snd a) k) positions.
Proof.
  induction positions as [|[[pos label] key] rest IH];
    intros answers k; simpl; [now rewrite orb_false_r|].
  rewrite IH, mem_set.
  destruct (str_eqb key k), (Dict.mem answers k); reflexivity.
Qed.

Lemma insert_anchor_in (a b : Anchor) (l : list Anchor) :
  In a (insert_anchor b l) <-> a = b \/ In a l.
Proof.
  induction l as [|c l IH]; simpl; [intuition|].
  destruct (anchor_pos b <=? anchor_pos c); simpl; [intuition|].
  rewrite IH. intuition.
Qed.

Lemma sort_positions_in (a : Anchor) (l : list Anchor) :
  In a (sort_positions l) <-> In a l.
Proof.
  unfold sort_positions. induction l as [|b l IH]; simpl; [tauto|].
  rewrite insert_anchor_in, IH. intuition.
Qed.

Lemma first_found_some (low_text : str) (cands : list str) (key : str)
  (a : Anchor) :
  first_found low_text cands key = Some a ->
  snd a = key /\ In (snd (fst a)) cands
  /\ find (snd (fst a)) low_text = Some (fst (fst a)).
Proof.
  induction cands as [|cand rest IH]; simpl; [discriminate|].
  destruct (find cand low_text) as [idx|] eqn:E.
  - intros [= <-]. simpl. auto.
  - intros H. destruct (IH H) as (Hk & Hin & Hf). auto.
Qed.

Lemma first_found_none (low_text : str) (cands : list str) (key : str) :
  first_found low_text cands key = None <->
  (forall cand, In cand cands -> contains cand low_text = false).
Proof.
  unfold contains.
  induction cands as [|cand rest IH]; simpl; [intuition|].
  destruct (find cand low_text) as [idx|] eqn:E.
  - split; [discriminate|]. intros H.
    specialize (H cand (or_introl eq_refl)). rewrite E in H. discriminate.
  - rewrite IH. split.
    + intros H c [<-|Hin]; [now rewrite E|auto].
    + intros H c Hin. apply H. now right.
Qed.

Lemma find_positions_acc (low_text : str) (ks : list str)
  (acc : list Anchor) (a : Anchor) :
  In a (fold_left
          (fun positions key =>
             match first_found low_text (candidates (lower key)) key with
             | Some found => positions ++ [found]
             | None => positions
             end) ks acc)
  <-> In a acc
      \/ exists key, In key ks
           /\ first_found low_text (candidates (lower key)) key = Some a.
Proof.
  revert acc. induction ks as [|key ks IH]; intros acc; cbn [fold_left].
  - split; [auto|]. intros [H|(key & [] & _)]. exact H.
  - rewrite IH.
    destruct (first_found low_text (candidates (lower key)) key)
      as [found|] eqn:E.
    + rewrite in_app_iff. cbn [In]. split.
      * intros [[H|[H|[]]]|(k & Hk & Hf)].
        -- now left.
        -- subst found. right. exists key. split; [now left|exact E].
        -- right. exists k. split; [now right|exact Hf].
      * intros [H|(k & [Hk|Hk] & Hf)].
        -- left. now left.
        -- subst k. rewrite E in Hf. injection Hf as Hf. left. right. auto.
        -- right. exists k. split; assumption.
    + split.
      * intros [H|(k & Hk & Hf)]; [now left|].
        right. exists k. split; [now right|exact Hf].
      * intros [H|(k & [Hk|Hk] & Hf)]; [now left| |].
        -- subst k. congruence.
        -- right. exists k. split; assumption.
Qed.

(** A key gets a snippet in the label pass exactly when it is a rubric
    key and one of its label variants occurs in the lower-cased text. *)
Lemma extract_by_rubric_keys_mem (text : str) (ks : list str) (k : str) :
  Dict.mem (extract_by_rubric_keys text ks) k = true
  <-> In k ks
      /\ exists cand, In cand (candidates (lower k))
                      /\ contains cand (lower text) = true.
Proof.
  unfold extract_by_rubric_keys. rewrite slice_answers_mem. simpl.
  rewrite existsb_exists. split.
  - intros (a & Hin & Hk). apply str_eqb_eq in Hk.
    apply (proj1 (sort_positions_in _ _)) in Hin.
    unfold find_positions in Hin.
    apply (proj1 (find_positions_acc _ _ _ _)) in Hin.
    destruct Hin as [[]|(key & Hkey & Hf)].
    apply first_found_some in Hf. destruct Hf as (Hsnd & Hc & Hfind).
    rewrite Hk in Hsnd. subst key. split; [exact Hkey|].
    exists (snd (fst a)). split; [exact Hc|].
    unfold contains. now rewrite Hfind.
  - intros (Hin & cand & Hc & Hcontains).
    destruct (first_found (lower text) (candidates (lower k)) k)
      as [a|] eqn:E.
    + exists a. split.
      * apply (proj2 (sort_positions_in _ _)). unfold find_positions.
        apply (proj2 (find_positions_acc _ _ _ _)). right. eauto.
      * apply first_found_some in E. apply str_eqb_eq. tauto.
    + rewrite first_found_none in E. rewrite (E cand Hc) in Hcontains.
      discriminate.
Qed.

Lemma substring_nil (s : str) : substring_of [] s.
Proof. now exists [], s. Qed.

Lemma extract_values (text : str) (ks : list str) (k v : str) :
  Dict.get (extract_by_rubric_keys text ks) k = Some v ->
  strip v = v /\ substring_of v text.
Proof.
  unfold extract_by_rubric_keys.
  apply (slice_answers_values
           (fun v => strip v = v /\ substring_of v text) text).
  - intros a b. split; [apply strip_strip|].
    eapply substring_trans; [apply strip_substring|apply slice_substring].
  - discriminate.
Qed.

(** X7.  Every snippet of the label pass is a run of consecutive
    characters of the text as given (original case), without leading or
    trailing whitespace. *)
Theorem label_snippets_are_trimmed_substrings (text : str)
  (rubric_keys : list str) (k v : str) :
  Dict.get (extract_by_rubric_keys text rubric_keys) k = Some v ->
  strip v = v /\ substring_of v text.
Proof. apply extract_values. Qed.

Lemma label_snippets_are_trimmed_substrings_witness :
  Dict.get (extract_by_rubric_keys example_text example_keys) (lit "Q2")
  = Some (lit ": delta epsilon")
  /\ strip (lit ": delta epsilon") = lit ": delta epsilon"
  /\ substring_of (lit ": delta epsilon") example_text.
Proof.
  assert (H : Dict.get (extract_by_rubric_keys example_text example_keys)
                (lit "Q2") = Some (lit ": delta epsilon"))
    by (vm_compute; reflexivity).
  split; [exact H|].
  exact (label_snippets_are_trimmed_substrings example_text example_keys
           (lit "Q2") (lit ": delta epsilon") H).
Defined.

(** X8.  The label pass gives a snippet to a key exactly when the key is
    a rubric key and one of its label variants occurs in the lower-cased
    text; in particular it never maps a key that is not in the rubric,
    and it maps nothing when no label occurs. *)
Theorem label_pass_domain (text : str) (rubric_keys : list str) (k : str) :
  Dict.mem (extract_by_rubric_keys text rubric_keys) k = true
  <-> In k rubric_keys
      /\ exists cand, In cand (candidates (lower k))
                      /\ contains cand (lower text) = true.
Proof. apply extract_by_rubric_keys_mem. Qed.

Lemma label_pass_domain_witness :
  Dict.mem (extract_by_rubric_keys example_text example_keys) (lit "Q1")
  = true
  /\ In (lit "Q1") example_keys
  /\ exists cand, In cand (candidates (lower (lit "Q1")))
                  /\ contains cand (lower example_text) = true.
Proof.
  assert (H : Dict.mem (extract_by_rubric_keys example_text example_keys)
                (lit "Q1") = true) by (vm_compute; reflexivity).
  split; [exact H|].
  exact (proj1 (label_pass_domain example_text example_keys (lit "Q1")) H).
Defined.

(** ** Chunks *)

Lemma firstn_plus {A} (a b : nat) (l : list A) :
  firstn (a + b) l = firstn a l ++ firstn b (skipn a l).
Proof.
  revert l. induction a as [|a IH]; intros l; simpl; [reflexivity|].
  destruct l as [|x l]; simpl; [now rewrite firstn_nil|].
  now rewrite IH.
Qed.

Lemma even_chunks_concat (text : str) (size m : nat) :
  concat (map (fun i => slice text (i * size) ((i + 1) * size)) (seq 0 m))
  = firstn (m * size) text.
Proof.
  induction m as [|m IH]; [reflexivity|].
  rewrite seq_S, map_app, concat_app, IH. simpl.
  rewrite app_nil_r. unfold slice.
  replace ((m + 1) * size - m * size) with size by lia.
  replace (size + m * size) with (m * size + size) by lia.
  now rewrite firstn_plus.
Qed.

Lemma chunks_concat (text : str) (n : nat) :
  0 < n -> concat (map (chunk text n) (seq 0 n)) = text.
Proof.
  intros Hn. destruct n as [|m]; [lia|].
  rewrite seq_S, map_app, concat_app. simpl.
  rewrite app_nil_r.
  set (size := Nat.max 1 (length text / S m)).
  rewrite (map_ext_in (chunk text (S m))
             (fun i => slice text (i * size) ((i + 1) * size))).
  - rewrite even_chunks_concat. unfold chunk. fold size.
    replace (m <? S m - 1) with false
      by (symmetry; apply Nat.ltb_ge; lia).
    unfold slice.
    rewrite (@firstn_all2 ascii (length text - m * size)
               (skipn (m * size) text))
      by (rewrite length_skipn; lia).
    apply firstn_skipn.
  - intros i Hi. apply in_seq in Hi. unfold chunk. fold size.
    replace (i <? S m - 1) with true
      by (symmetry; apply Nat.ltb_lt; lia).
    reflexivity.
Qed.

(** X9.  The chunks of the fallback are consecutive and cover the text:
    for a rubric of n >= 1 keys, the chunks of the indices 0 .. n-1,
    put end to end, are the text. *)
Theorem chunks_cover_text (text : str) (n : nat) :
  0 < n -> concat (map (chunk text n) (seq 0 n)) = text.
Proof. apply chunks_concat. Qed.

Lemma chunks_cover_text_witness :
  0 < 3
  /\ concat (map (chunk (lit "ab") 3) (seq 0 3)) = lit "ab".
Proof.
  split; [lia|].
  apply (chunks_cover_text (lit "ab") 3). lia.
Defined.

(** ** Rubric-driven segmentation: what the fallback touches *)

Lemma first_pass_extracted (text : str) (ks : list str) (k v : str) :
  Dict.get (extract_by_rubric_keys text ks) k = Some v ->
  strip v <> [] ->
  first_pass text ks k = v.
Proof.
  intros Hget Hne. unfold first_pass. rewrite Hget.
  apply truthy_nonempty in Hne. now rewrite Hne.
Qed.

Lemma first_pass_values (text : str) (ks : list str) (k : str) :
  strip (first_pass text ks k) = first_pass text ks k
  /\ substring_of (first_pass text ks k) text.
Proof.
  unfold first_pass.
  destruct (Dict.get (extract_by_rubric_keys text ks) k) as [v|] eqn:E;
    [|split; [reflexivity|apply substring_nil]].
  destruct (truthy (strip v));
    [|split; [reflexivity|apply substring_nil]].
  exact (extract_values text ks k v E).
Qed.

Lemma blank_substring (v s : str) :
  substring_of v s -> strip s = [] -> strip v = [].
Proof.
  intros Hsub Hs. apply strip_nil_iff. apply strip_nil_iff in Hs.
  rewrite forallb_forall in *. intros c Hc. apply Hs.
  eapply substring_in; eauto.
Qed.

Lemma first_pass_blank_text (text : str) (ks : list str) (k : str) :
  strip text = [] -> first_pass text ks k = [].
Proof.
  intros Hblank.
  destruct (first_pass_values text ks k) as [Hs Hsub].
  rewrite <- Hs. eapply blank_substring; eauto.
Qed.

(** X10.  The fallback never overwrites a snippet found by its label:
    a rubric key whose label-pass snippet is not blank keeps exactly
    that snippet in the segmentation mapping. *)
Theorem fallback_keeps_label_snippets (text : str) (rubric_keys : list str)
  (k v : str) :
  NoDup rubric_keys ->
  In k rubric_keys ->
  Dict.get (extract_by_rubric_keys text rubric_keys) k = Some v ->
  strip v <> [] ->
  Dict.get (segment_by_rubric text rubric_keys) k = Some v.
Proof.
  intros Hnd Hin Hget Hne.
  destruct (In_nth_error rubric_keys k Hin) as [idx Hnth].
  rewrite (segment_by_rubric_get text rubric_keys idx k Hnd Hnth).
  cbv zeta. rewrite (first_pass_extracted text rubric_keys k v Hget Hne).
  apply truthy_nonempty in Hne. now rewrite Hne.
Qed.

Lemma fallback_keeps_label_snippets_witness :
  NoDup three_keys
  /\ In (lit "Q2") three_keys
  /\ Dict.get (extract_by_rubric_keys (lit "intro q2: osmosis") three_keys)
       (lit "Q2") = Some (lit ": osmosis")
  /\ strip (lit ": osmosis") <> []
  /\ Dict.get (segment_by_rubric (lit "intro q2: osmosis") three_keys)
       (lit "Q2") = Some (lit ": osmosis").
Proof.
  assert (Hnd : NoDup three_keys).
  { unfold three_keys. repeat constructor; cbn; intuition discriminate. }
  assert (Hin : In (lit "Q2") three_keys) by (cbn; tauto).
  assert (Hget : Dict.get (extract_by_rubric_keys (lit "intro q2: osmosis")
                             three_keys) (lit "Q2")
                 = Some (lit ": osmosis")) by (vm_compute; reflexivity).
  assert (Hne : strip (lit ": osmosis") <> [])
    by (vm_compute; discriminate).
  split; [exact Hnd|]. split; [exact Hin|].
  split; [exact Hget|]. split; [exact Hne|].
  exact (fallback_keeps_label_snippets (lit "intro q2: osmosis") three_keys
           (lit "Q2") (lit ": osmosis") Hnd Hin Hget Hne).
Defined.

(** X11.  On a text that is empty or whitespace-only the segmentation
    maps every rubric key to the empty snippet, in rubric order: neither
    pass has anything to give. *)
Theorem blank_text_gives_empty_snippets (text : str)
  (rubric_keys : list str) :
  NoDup rubric_keys ->
  strip text = [] ->
  segment_by_rubric text rubric_keys = map (fun k => (k, [])) rubric_keys.
Proof.
  intros Hnd Hblank. unfold segment_by_rubric.
  rewrite (fill_from_extracted_map text rubric_keys Hnd).
  unfold chunk_fallback. rewrite Hblank. cbn [truthy].
  rewrite andb_false_r.
  apply map_ext. intros k. now rewrite first_pass_blank_text.
Qed.

Lemma blank_text_gives_empty_snippets_witness :
  NoDup three_keys
  /\ strip (lit "   ") = []
  /\ segment_by_rubric (lit "   ") three_keys
     = map (fun k => (k, [])) three_keys.
Proof.
  assert (Hnd : NoDup three_keys).
  { unfold three_keys. repeat constructor; cbn; intuition discriminate. }
  split; [exact Hnd|]. split; [reflexivity|].
  exact (blank_text_gives_empty_snippets (lit "   ") three_keys Hnd eq_refl).
Defined.

Lemma segment_values (text : str) (ks : list str) (k v : str) :
  NoDup ks ->
  Dict.get (segment_by_rubric text ks) k = Some v ->
  strip v = v /\ substring_of v text.
Proof.
  intros Hnd Hget.
  assert (Hin : In k ks).
  { rewrite <- (segment_by_rubric_keys text ks Hnd).
    eapply get_keys; eauto. }
  destruct (In_nth_error ks k Hin) as [idx Hnth].
  rewrite (segment_by_rubric_get text ks idx k Hnd Hnth) in Hget.
  cbv zeta in Hget. injection Hget as <-.
  destruct (truthy (strip (first_pass text ks k)));
    [apply first_pass_values|].
  destruct (truthy (strip text)); [|apply first_pass_values].
  split; [apply strip_strip|].
  eapply substring_trans; [apply strip_substring|].
  unfold chunk. apply slice_substring.
Qed.

(** X12.  Every snippet of the rubric-driven segmentation, whether it
    comes from a label or from the fallback, is a run of consecutive
    characters of the text without leading or trailing whitespace; in
    particular it is never longer than the text. *)
Theorem segment_snippets_are_trimmed_substrings (text : str)
  (rubric_keys : list str) (k v : str) :
  NoDup rubric_keys ->
  Dict.get (segment_by_rubric text rubric_keys) k = Some v ->
  strip v = v /\ substring_of v text /\ length v <= length text.
Proof.
  intros Hnd Hget.
  destruct (segment_values text rubric_keys k v Hnd Hget) as [Hs Hsub].
  split; [exact Hs|]. split; [exact Hsub|].
  now apply substring_length.
Qed.

Lemma segment_snippets_are_trimmed_substrings_witness :
  NoDup three_keys
  /\ Dict.get (segment_by_rubric (lit "abcdefgh") three_keys) (lit "Q3")
     = Some (lit "efgh")
  /\ strip (lit "efgh") = lit "efgh"
  /\ substring_of (lit "efgh") (lit "abcdefgh")
  /\ length (lit "efgh") <= length (lit "abcdefgh").
Proof.
  assert (Hnd : NoDup three_keys).
  { unfold three_keys. repeat constructor; cbn; intuition discriminate. }
  assert (Hget : Dict.get (segment_by_rubric (lit "abcdefgh") three_keys)
                   (lit "Q3") = Some (lit "efgh"))
    by (vm_compute; reflexivity).
  split; [exact Hnd|]. split; [exact Hget|].
  exact (segment_snippets_are_trimmed_substrings (lit "abcdefgh") three_keys
           (lit "Q3") (lit "efgh") Hnd Hget).
Defined.

(** ** Segmentation by the pattern (no rubric) *)

Lemma str_eqb_app (p a b : str) : str_eqb (p ++ a) (p ++ b) = str_eqb a b.
Proof.
  destruct (str_eqb a b) eqn:E.
  - apply str_eqb_eq in E. subst. apply str_eqb_refl.
  - apply str_eqb_neq. intros H. apply app_inv_head in H. subst.
    now rewrite str_eqb_refl in E.
Qed.

Lemma get_or_set_same {V} (d : Dict.dict V) (k : str) (v default : V) :
  Dict.get_or (Dict.set d k v) k default = v.
Proof. unfold Dict.get_or. now rewrite get_set_same. Qed.

(** The accumulation loop of Case B, for a rubric without keys, from any
    mapping [d]. *)
Lemma accumulate_get (ms : list (str * str)) :
  forall (d : Dict.dict str) (n : str),
    Dict.get
      (fold_left
         (fun question_answers '(q_number, answer_text) =>
            let qid := lit "Q" ++ q_number in
            let key := if Dict.mem (@nil (str * GradingRule)) qid then qid
                       else if Dict.mem (@nil (str * GradingRule)) (lower qid)
                            then lower qid
                            else qid in
            Dict.set question_answers key
              (Dict.get_or question_answers key [] ++ lit " " ++ answer_text))
         ms d)
      (lit "Q" ++ n)
    = match matches_numbered n ms with
      | [] => Dict.get d (lit "Q" ++ n)
      | same => Some (Dict.get_or d (lit "Q" ++ n) [] ++ accumulated same)
      end.
Proof.
  induction ms as [|[q a] ms IH]; intros d n; [reflexivity|].
  cbn [fold_left]. cbv zeta. cbn [Dict.mem Dict.get].
  rewrite IH. unfold matches_numbered. cbn [filter fst].
  destruct (str_eqb q n) eqn:E.
  - apply str_eqb_eq in E. subst q.
    rewrite get_or_set_same, get_set_same.
    fold (matches_numbered n ms).
    destruct (matches_numbered n ms) as [|m same].
    + unfold accumulated. simpl. now rewrite app_nil_r.
    + unfold accumulated. cbn [map concat snd].
      now rewrite <- !app_assoc.
  - assert (Hne : lit "Q" ++ q <> lit "Q" ++ n).
    { intros H. apply app_inv_head in H. subst.
      now rewrite str_eqb_refl in E. }
    unfold Dict.get_or. rewrite (get_set_other _ _ _ _ Hne). reflexivity.
Qed.

Lemma accumulate_keys (ms : list (str * str)) :
  forall d : Dict.dict str,
    Dict.keys
      (fold_left
         (fun question_answers '(q_number, answer_text) =>
            let qid := lit "Q" ++ q_number in
            let key := if Dict.mem (@nil (str * GradingRule)) qid then qid
                       else if Dict.mem (@nil (str * GradingRule)) (lower qid)
                            then lower qid
                            else qid in
            Dict.set question_answers key
              (Dict.get_or question_answers key [] ++ lit " " ++ answer_text))
         ms d)
    = fold_left
        (fun seen k =>
           if existsb (fun k' => str_eqb k' k) seen then seen else seen ++ [k])
        (map (fun m => lit "Q" ++ fst m) ms) (Dict.keys d).
Proof.
  induction ms as [|[q a] ms IH]; intros d; [reflexivity|].
  cbn [fold_left map fst]. cbv zeta. cbn [Dict.mem Dict.get].
  now rewrite IH, keys_set, mem_existsb.
Qed.

(** X13.  Without rubric keys, the snippet of question "Q" + n is the
    concatenation, in match order, of the answers of all the matches
    numbered n, each preceded by one space; a number that never matches
    has no entry, and the questions are listed in the order of the first
    match of each number. *)
Theorem pattern_segments_accumulate (re_findall : str -> list (str * str))
  (full_text n : str) :
  Dict.get (segment_by_pattern re_findall [] full_text) (lit "Q" ++ n)
  = match matches_numbered n (re_findall full_text) with
    | [] => None
    | same => Some (accumulated same)
    end
  /\ Dict.keys (segment_by_pattern re_findall [] full_text)
     = first_occurrences
         (map (fun m => lit "Q" ++ fst m) (re_findall full_text)).
Proof.
  unfold segment_by_pattern. split.
  - rewrite accumulate_get.
    destruct (matches_numbered n (re_findall full_text)); reflexivity.
  - rewrite accumulate_keys. reflexivity.
Qed.

(** ** The whole evaluation *)

Lemma get_in {V} (d : Dict.dict V) (k : str) (v : V) :
  Dict.get d k = Some v -> In (k, v) d.
Proof.
  induction d as [|[k' v'] d IH]; simpl; [discriminate|].
  destruct (str_eqb k' k) eqn:E.
  - intros [= ->]. apply str_eqb_eq in E. subst. now left.
  - intros H. right. auto.
Qed.

Lemma score_entry_within_max (rule : GradingRule) (qid answer_text : str) :
  well_configured rule ->
  (0 <= suggested_marks (score_entry rule qid answer_text)
   <= res_max_marks (score_entry rule qid answer_text))%Z.
Proof.
  intros (Hd & Hk & He & Hsum).
  destruct (score_entry_fields rule qid answer_text)
    as (Ed & Ek & Ee & Es & Emax & _).
  cbv zeta in *. rewrite Es, Ed, Ek, Ee, Emax.
  destruct (10 <? length (strip answer_text));
    destruct (15 <? length (split answer_text)); lia.
Qed.

Lemma default_rule_well_configured : well_configured default_rule.
Proof. unfold well_configured, default_rule; cbn; lia. Qed.

Lemma evaluate_in (re_findall : str -> list (str * str)) (rubric : Rubric)
  (text : str) (r : Result) :
  In r (evaluate re_findall rubric text) ->
  exists qid answer_text,
    r = score_entry (Dict.get_or rubric qid default_rule) qid answer_text.
Proof.
  unfold evaluate. rewrite score_all_map. intros Hin.
  apply in_map_iff in Hin. destruct Hin as ([qid a] & <- & _).
  now exists qid, a.
Qed.

(** X14.  When every rule of the rubric is well configured (no negative
    allocation, allocations within max_marks), every entry of the
    results of a run, in either segmentation case, has
    0 <= suggested_marks <= max_marks. *)
Theorem evaluate_within_max (re_findall : str -> list (str * str))
  (rubric : Rubric) (full_text : str) :
  (forall k rule, In (k, rule) rubric -> well_configured rule) ->
  forall r, In r (evaluate re_findall rubric full_text) ->
    (0 <= suggested_marks r <= res_max_marks r)%Z.
Proof.
  intros Hrules r Hin.
  destruct (evaluate_in re_findall rubric full_text r Hin)
    as (qid & a & ->).
  apply score_entry_within_max. unfold Dict.get_or.
  destruct (Dict.get rubric qid) as [rule|] eqn:E.
  - apply (Hrules qid). now apply get_in.
  - apply default_rule_well_configured.
Qed.

Lemma evaluate_within_max_witness :
  (forall k rule, In (k, rule) sample_rubric -> well_configured rule)
  /\ forall r, In r (evaluate (fun _ => []) sample_rubric mitosis_answer) ->
       (0 <= suggested_marks r <= res_max_marks r)%Z.
Proof.
  assert (H : forall k rule, In (k, rule) sample_rubric ->
                             well_configured rule).
  { intros k rule [Hin|[]]. injection Hin as _ <-.
    unfold well_configured, mitosis_rule; cbn; lia. }
  split; [exact H|].
  exact (evaluate_within_max (fun _ => []) sample_rubric mitosis_answer H).
Defined.

(** X15.  Without a rubric every question is scored under the default
    rule, whose keyword list is empty: every entry is out of 10, its
    keywords score is 0, and its suggested marks are at most 6. *)
Theorem no_rubric_scores_at_most_six (re_findall : str -> list (str * str))
  (full_text : str) (r : Result) :
  In r (evaluate re_findall [] full_text) ->
  res_max_marks r = 10%Z
  /\ bd_keywords (breakdown r) = 0%Z
  /\ (0 <= suggested_marks r <= 6)%Z.
Proof.
  intros Hin.
  destruct (evaluate_in re_findall [] full_text r Hin) as (qid & a & ->).
  change (Dict.get_or [] qid default_rule) with default_rule.
  destruct (score_entry_fields default_rule qid a)
    as (Ed & Ek & Ee & Es & Emax & _).
  cbv zeta in *. unfold default_rule in *.
  cbn [rule_get definition_marks keyword_marks explanation_marks max_marks
         keywords filter length] in Ed, Ek, Ee, Emax.
  rewrite Es, Ed, Ek, Ee, Emax.
  destruct (10 <? length (strip a)); destruct (15 <? length (split a));
    repeat split; lia.
Qed.

Lemma no_rubric_scores_at_most_six_witness :
  In (score_entry default_rule (lit "Q1") (lit " mitosis"))
    (evaluate (fun _ => [(lit "1", lit "mitosis")]) [] (lit "q1 mitosis"))
  /\ res_max_marks (score_entry default_rule (lit "Q1") (lit " mitosis"))
     = 10%Z.
Proof.
  assert (H : In (score_entry default_rule (lit "Q1") (lit " mitosis"))
                (evaluate (fun _ => [(lit "1", lit "mitosis")]) []
                   (lit "q1 mitosis"))) by (vm_compute; tauto).
  split; [exact H|].
  exact (proj1 (no_rubric_scores_at_most_six _ _ _ H)).
Defined.

(** ** Rubric resolution: when the service is asked *)

Lemma truthy_false (s : str) : truthy s = false <-> s = [].
Proof. destruct s; simpl; split; congruence. Qed.


(** X16.  The rubric service is asked only when stdin carried no
    document (it was read, and is empty or whitespace-only) and a
    non-empty subject code was given; it is asked for that code. *)
Theorem api_asked_only_without_stdin
  (static_rubric : Rubric) (json_loads : str -> outcome json)
  (api : str -> option Rubric * list Warning)
  (stdin : outcome str) (subject_code : option str) (code : str) :
  In (ApiFetch code)
     (snd (resolve_rubric static_rubric json_loads api stdin subject_code)) ->
  exists stdin_data,
    stdin = Ok stdin_data /\ strip stdin_data = []
    /\ subject_code = Some code /\ code <> [].
Proof.
  unfold resolve_rubric.
  destruct stdin as [stdin_data|e]; [|simpl; intuition discriminate].
  destruct (truthy stdin_data && truthy (strip stdin_data)) eqn:Edata.
  - destruct (json_loads stdin_data) as [[parsed|]|e]; simpl;
      intuition discriminate.
  - assert (Hblank : strip stdin_data = []).
    { apply andb_false_iff in Edata. destruct Edata as [E|E].
      - apply truthy_false in E. now subst.
      - now apply truthy_false. }
    destruct subject_code as [c|]; [|simpl; tauto].
    destruct (truthy c) eqn:Ec; [|simpl; tauto].
    destruct (api c) as [api_rubric warnings].
    assert (Hev : In (ApiFetch code) (ApiFetch c :: map Stderr warnings) ->
                  c = code).
    { intros [H|H]; [now injection H|].
      apply in_map_iff in H. destruct H as (w & Hw & _). discriminate. }
    assert (Hc : c <> []) by now apply truthy_nonempty.
    destruct api_rubric as [r|]; [destruct (0 <? length r)|];
      cbn [snd]; intros Hin; apply Hev in Hin; subst c;
      exists stdin_data; auto.
Qed.

Lemma api_asked_only_without_stdin_witness :
  In (ApiFetch (lit "CS101"))
     (snd (resolve_rubric [] sample_json_loads sample_api
             (Ok (lit " ")) (Some (lit "CS101"))))
  /\ exists stdin_data,
       Ok (lit " ") = Ok stdin_data /\ strip stdin_data = []
       /\ Some (lit "CS101") = Some (lit "CS101") /\ lit "CS101" <> [].
Proof.
  assert (H : In (ApiFetch (lit "CS101"))
                (snd (resolve_rubric [] sample_json_loads sample_api
                        (Ok (lit " ")) (Some (lit "CS101")))))
    by (vm_compute; tauto).
  split; [exact H|].
  exact (api_asked_only_without_stdin [] sample_json_loads sample_api
           (Ok (lit " ")) (Some (lit "CS101")) (lit "CS101") H).
Defined.

(** X17.  A document on stdin that is not a JSON object -- unparsable,
    or parsed to some other JSON value -- leaves the static rubric in
    place, with one warning on stderr for the unparsable one and none
    for the other; the rubric service is not asked even when a subject
    code is given. *)
Theorem bad_stdin_keeps_static_rubric
  (static_rubric : Rubric) (json_loads : str -> outcome json)
  (api : str -> option Rubric * list Warning)
  (stdin_data : str) (subject_code : option str) :
  strip stdin_data <> [] ->
  (forall e, json_loads stdin_data = Raise e ->
     resolve_rubric static_rubric json_loads api (Ok stdin_data) subject_code
     = (static_rubric,
        [Stderr (mkWarning (lit "Invalid rubric JSON on stdin") e)]))
  /\ (json_loads stdin_data = Ok JOther ->
      resolve_rubric static_rubric json_loads api (Ok stdin_data) subject_code
      = (static_rubric, [])).
Proof.
  intros Hblank. unfold resolve_rubric.
  assert (Hdata : truthy stdin_data = true).
  { destruct stdin_data; [now elim Hblank|reflexivity]. }
  apply truthy_nonempty in Hblank. rewrite Hdata, Hblank. cbn [andb].
  split; [intros e|]; intros ->; reflexivity.
Qed.

Lemma bad_stdin_keeps_static_rubric_witness :
  strip (lit "[1, 2") <> []
  /\ sample_json_loads (lit "[1, 2") = Raise (lit "Expecting value")
  /\ resolve_rubric sample_rubric sample_json_loads sample_api
       (Ok (lit "[1, 2")) (Some (lit "CS101"))
     = (sample_rubric,
        [Stderr (mkWarning (lit "Invalid rubric JSON on stdin")
                   (lit "Expecting value"))]).
Proof.
  assert (Hblank : strip (lit "[1, 2") <> []) by (vm_compute; discriminate).
  split; [exact Hblank|]. split; [reflexivity|].
  exact (proj1 (bad_stdin_keeps_static_rubric sample_rubric sample_json_loads
                  sample_api (lit "[1, 2") (Some (lit "CS101")) Hblank)
           (lit "Expecting value") eq_refl).
Defined.

(** ** The run: exit status, OCR calls and the error document *)




(** ** The rubric service: what a fetched rubric looks like *)

Lemma wf_set {V} (d : Dict.dict V) (k : str) (v : V) :
  Dict.wf d -> Dict.wf (Dict.set d k v).
Proof.
  unfold Dict.wf. rewrite keys_set. intros Hnd.
  destruct (Dict.mem d k) eqn:E; [exact Hnd|].
  assert (Hnot : ~ In k (Dict.keys d)).
  { intros Hin. apply mem_keys in Hin. congruence. }
  apply NoDup_app; [exact Hnd|repeat constructor; tauto|].
  intros x Hx [<-|[]]. contradiction.
Qed.

Lemma in_set {V} (d : Dict.dict V) (k k' : str) (v v' : V) :
  In (k', v') (Dict.set d k v) -> (k' = k /\ v' = v) \/ In (k', v') d.
Proof.
  induction d as [|[k0 v0] d IH]; simpl.
  - intros [[= <- <-]|[]]. now left.
  - destruct (str_eqb k0 k) eqn:E; simpl.
    + apply str_eqb_eq in E. subst k0.
      intros [[= <- <-]|H]; [now left|right; now right].
    + intros [H|H]; [right; now left|].
      destruct (IH H); [now left|right; now right].
Qed.

Lemma rubric_of_questions_ok (qs : list Question) :
  forall (out r : Rubric),
    rubric_of_questions qs out = Ok r ->
    (Dict.wf out -> Dict.wf r)
    /\ (forall k rule, In (k, rule) r ->
          In (k, rule) out
          \/ exists q, In q qs /\ questionId q = Some k
                       /\ rule = rule_of_question q)
    /\ Dict.keys r
       = fold_left
           (fun seen k =>
              if existsb (fun k' => str_eqb k' k) seen then seen
              else seen ++ [k])
           (question_ids qs) (Dict.keys out).
Proof.
  induction qs as [|q qs IH]; intros out r; simpl.
  - intros [= <-]. repeat split; auto.
  - destruct (questionId q) as [qid|] eqn:Eid; [|discriminate].
    intros Hok. destruct (IH _ _ Hok) as (Hwf & Hin & Hkeys).
    split; [|split].
    + intros Hout. apply Hwf. now apply wf_set.
    + intros k rule Hr. destruct (Hin k rule Hr) as [Hset|(q' & Hq' & H)].
      * apply in_set in Hset. destruct Hset as [[-> ->]|Hout]; [|now left].
        right. exists q. auto.
      * right. exists q'. split; [now right|exact H].
    + cbn [app fold_left]. now rewrite Hkeys, keys_set, mem_existsb.
Qed.

Lemma rubric_of_questions_missing_id (qs : list Question) :
  forall out : Rubric,
    (exists q, In q qs /\ questionId q = None) ->
    rubric_of_questions qs out = Raise (lit "'questionId'").
Proof.
  induction qs as [|q qs IH]; intros out (q0 & Hin & Hnone); simpl.
  - destruct Hin.
  - destruct (questionId q) as [qid|] eqn:Eid; [|reflexivity].
    apply IH. destruct Hin as [->|Hin]; [congruence|]. now exists q0.
Qed.

Lemma rubric_of_questions_app (a b : list Question) :
  forall out : Rubric,
    rubric_of_questions (a ++ b) out
    = match rubric_of_questions a out with
      | Ok o => rubric_of_questions b o
      | Raise e => Raise e
      end.
Proof.
  induction a as [|q a IH]; intros out; simpl; [reflexivity|].
  destruct (questionId q); [apply IH|reflexivity].
Qed.

Lemma rubric_of_questions_other (qs : list Question) (k : str) :
  forall (out r : Rubric),
    rubric_of_questions qs out = Ok r ->
    (forall q, In q qs -> questionId q <> Some k) ->
    Dict.get r k = Dict.get out k.
Proof.
  induction qs as [|q qs IH]; intros out r; simpl.
  - now intros [= <-].
  - destruct (questionId q) as [qid|] eqn:Eid; [|discriminate].
    intros Hok Hother. rewrite (IH _ _ Hok).
    + apply get_set_other. intros ->.
      apply (Hother q); [now left|exact Eid].
    + intros q' Hq'. apply Hother. now right.
Qed.




(** X20.  One question without a [questionId] discards the whole fetched
    rubric: the fetch returns [None] and writes one warning whose reason
    is the missing key, whatever the other questions are. *)
Theorem question_without_id_discards_rubric
  (http_get : str -> outcome Response) (subject_code : str)
  (resp : Response) (body : ApiBody) (paper : Paper) (qs : list Question) :
  http_get subject_code = Ok resp ->
  status_code resp = 200%Z ->
  json_body resp = Ok body ->
  success body = true ->
  data body = Some paper ->
  questions paper = Some qs ->
  (exists q, In q qs /\ questionId q = None) ->
  load_rubric_from_api http_get subject_code
  = (None, [fetch_warning (lit "'questionId'")]).
Proof.
  intros Hget Hs Hj Hb Hd Hq Hmissing. unfold load_rubric_from_api.
  rewrite Hget, Hs, Hj, Hb, Hd, Hq. cbn [Z.eqb Pos.eqb rule_get].
  now rewrite (rubric_of_questions_missing_id qs [] Hmissing).
Qed.

Lemma question_without_id_discards_rubric_witness :
  (exists q, In q [question_q1_first; question_without_id]
             /\ questionId q = None)
  /\ load_rubric_from_api
       (service_with [question_q1_first; question_without_id]) (lit "CS101")
     = (None, [fetch_warning (lit "'questionId'")]).
Proof.
  assert (H : exists q, In q [question_q1_first; question_without_id]
                        /\ questionId q = None).
  { exists question_without_id. split; [cbn; tauto|reflexivity]. }
  split; [exact H|].
  exact (question_without_id_discards_rubric
           (service_with [question_q1_first; question_without_id])
           (lit "CS101") _ _ _ _ eq_refl eq_refl eq_refl eq_refl eq_refl
           eq_refl H).
Defined.

(** X21.  In the rubric built from the questions of a paper, the
    question ids appear in the order of their first occurrence, and an
    id that occurs more than once gets the rule of its last question. *)
Theorem repeated_question_id_last_wins (before after : list Question)
  (q : Question) (k : str) (r : Rubric) :
  rubric_of_questions (before ++ q :: after) [] = Ok r ->
  questionId q = Some k ->
  (forall q', In q' after -> questionId q' <> Some k) ->
  Dict.get r k = Some (rule_of_question q)
  /\ Dict.keys r = first_occurrences (question_ids (before ++ q :: after)).
Proof.
  intros Hok Hid Hafter. split.
  - rewrite rubric_of_questions_app in Hok.
    destruct (rubric_of_questions before []) as [o|e]; [|discriminate].
    simpl in Hok. rewrite Hid in Hok.
    rewrite (rubric_of_questions_other after k _ _ Hok Hafter).
    apply get_set_same.
  - now destruct (rubric_of_questions_ok _ _ _ Hok) as (_ & _ & ->).
Qed.

Lemma repeated_question_id_last_wins_witness :
  rubric_of_questions ([question_q1_first] ++ question_q1_second :: []) []
  = Ok [(lit "Q1", rule_of_question question_q1_second)]
  /\ Dict.get [(lit "Q1", rule_of_question question_q1_second)] (lit "Q1")
     = Some (rule_of_question question_q1_second).
Proof.
  assert (H : rubric_of_questions
                ([question_q1_first] ++ question_q1_second :: []) []
              = Ok [(lit "Q1", rule_of_question question_q1_second)])
    by (vm_compute; reflexivity).
  split; [exact H|].
  refine (proj1 (repeated_question_id_last_wins [question_q1_first] []
                   question_q1_second (lit "Q1") _ H eq_refl _)).
  intros q' [].
Defined.

(** ** The simulated revaluation *)

Open Scope Z_scope.

(** X22.  For marks between 0 and 100 and an increase drawn between 5
    and 15, the revaluation never lowers the marks, never gives more
    than 100, and never adds more than 15; its status is PASS exactly
    when the new marks are at least 24. *)
Theorem ai_revaluation_bounds (draws : Draws) (current_marks : Z) :
  0 <= current_marks <= 100 ->
  5 <= increase draws <= 15 ->
  let r := ai_revaluation draws current_marks in
  old_marks r = current_marks
  /\ current_marks <= new_marks r <= 100
  /\ new_marks r - current_marks <= 15
  /\ (status r = PASS <-> 24 <= new_marks r).
Proof.
  intros Hm Hi. unfold ai_revaluation.
  destruct (change draws); cbn [old_marks new_marks status].
  - repeat split; try lia.
    + destruct (24 <=? Z.min 100 (current_marks + increase draws)) eqn:E;
        [intros _; now apply Z.leb_le|discriminate].
    + intros H. apply Z.leb_le in H. now rewrite H.
  - repeat split; try lia.
    + destruct (24 <=? current_marks) eqn:E;
        [intros _; now apply Z.leb_le|discriminate].
    + intros H. apply Z.leb_le in H. now rewrite H.
Qed.

Lemma ai_revaluation_bounds_witness :
  (0 <= 95 <= 100) /\ (5 <= 12 <= 15)
  /\ new_marks (ai_revaluation (mkDraws true 12) 95) = 100
  /\ (95 <= new_marks (ai_revaluation (mkDraws true 12) 95) <= 100).
Proof.
  assert (Hm : 0 <= 95 <= 100) by lia.
  assert (Hi : 5 <= increase (mkDraws true 12) <= 15) by (cbn; lia).
  split; [exact Hm|]. split; [exact Hi|]. split; [reflexivity|].
  exact (proj1 (proj2 (ai_revaluation_bounds (mkDraws true 12) 95 Hm Hi))).
Defined.

(** X23.  A script that passes keeps passing: with marks of at least 24
    and a non-negative increase the status is PASS whatever is drawn.
    Marks above 100 are not kept by a change: it lowers them to 100. *)
Theorem ai_revaluation_pass_and_cap (draws : Draws) (current_marks : Z) :
  0 <= increase draws ->
  (24 <= current_marks -> status (ai_revaluation draws current_marks) = PASS)
  /\ (100 < current_marks -> change draws = true ->
      new_marks (ai_revaluation draws current_marks) = 100
      /\ new_marks (ai_revaluation draws current_marks) < current_marks).
Proof.
  intros Hi. unfold ai_revaluation. split.
  - intros Hm. destruct (change draws); cbn [status].
    + assert (E : (24 <=? Z.min 100 (current_marks + increase draws)) = true)
        by (apply Z.leb_le; lia).
      now rewrite E.
    + assert (E : (24 <=? current_marks) = true) by (apply Z.leb_le; lia).
      now rewrite E.
  - intros Hm ->. cbn [new_marks]. lia.
Qed.

Lemma ai_revaluation_pass_and_cap_witness :
  0 <= 5 /\ 100 < 120
  /\ new_marks (ai_revaluation (mkDraws true 5) 120) = 100
  /\ new_marks (ai_revaluation (mkDraws true 5) 120) < 120.
Proof.
  assert (Hi : 0 <= increase (mkDraws true 5)) by (cbn; lia).
  split; [lia|]. split; [lia|].
  refine (proj2 (ai_revaluation_pass_and_cap (mkDraws true 5) 120 Hi) _ _);
    [lia|reflexivity].
Defined.

Close Scope Z_scope.

(** ** Rubric resolution over the rubric service *)

(** X24.  When stdin carries no document and a subject code is given, a
    fetch that raises (network or parsing) leaves the static rubric in
    place: the run goes on with it, and the only trace of the failure is
    one warning on stderr with the reason of the exception. *)
Theorem failed_fetch_falls_back_to_static
  (static_rubric : Rubric) (json_loads : str -> outcome json)
  (http_get : str -> outcome Response)
  (stdin_data code e : str) :
  strip stdin_data = [] ->
  code <> [] ->
  http_get code = Raise e ->
  resolve_rubric static_rubric json_loads (load_rubric_from_api http_get)
    (Ok stdin_data) (Some code)
  = (static_rubric, [ApiFetch code; Stderr (fetch_warning e)]).
Proof.
  intros Hblank Hcode Hget. unfold resolve_rubric.
  rewrite Hblank. cbn [truthy]. rewrite andb_false_r.
  apply truthy_nonempty in Hcode. rewrite Hcode.
  unfold load_rubric_from_api. now rewrite Hget.
Qed.

Lemma failed_fetch_falls_back_to_static_witness :
  strip (lit "") = [] /\ lit "CS101" <> []
  /\ resolve_rubric sample_rubric sample_json_loads
       (load_rubric_from_api (fun _ => Raise (lit "Connection refused")))
       (Ok (lit "")) (Some (lit "CS101"))
     = (sample_rubric,
        [ApiFetch (lit "CS101");
         Stderr (fetch_warning (lit "Connection refused"))]).
Proof.
  assert (Hcode : lit "CS101" <> []) by discriminate.
  split; [reflexivity|]. split; [exact Hcode|].
  exact (failed_fetch_falls_back_to_static sample_rubric sample_json_loads
           (fun _ => Raise (lit "Connection refused"))
           (lit "") (lit "CS101") (lit "Connection refused")
           eq_refl Hcode eq_refl).
Defined.

(** X25.  A fetched paper without questions gives the empty rubric,
    which the resolution does not take: the static rubric stays, without
    any warning.  (An empty rubric on stdin, in contrast, is taken.) *)
Theorem empty_fetched_rubric_is_not_used
  (static_rubric : Rubric) (json_loads : str -> outcome json)
  (http_get : str -> outcome Response)
  (stdin_data code : str) (resp : Response) (body : ApiBody)
  (paper : Paper) :
  strip stdin_data = [] ->
  code <> [] ->
  http_get code = Ok resp ->
  status_code resp = 200%Z ->
  json_body resp = Ok body ->
  success body = true ->
  data body = Some paper ->
  rule_get (questions paper) [] = [] ->
  load_rubric_from_api http_get code = (Some [], [])
  /\ resolve_rubric static_rubric json_loads (load_rubric_from_api http_get)
       (Ok stdin_data) (Some code)
     = (static_rubric, [ApiFetch code]).
Proof.
  intros Hblank Hcode Hget Hs Hj Hb Hd Hq.
  assert (Hload : load_rubric_from_api http_get code = (Some [], [])).
  { unfold load_rubric_from_api.
    rewrite Hget, Hs, Hj, Hb, Hd, Hq. reflexivity. }
  split; [exact Hload|].
  unfold resolve_rubric.
  rewrite Hblank. cbn [truthy]. rewrite andb_false_r.
  apply truthy_nonempty in Hcode. rewrite Hcode, Hload. reflexivity.
Qed.

Lemma empty_fetched_rubric_is_not_used_witness :
  strip (lit "") = [] /\ lit "CS101" <> []
  /\ resolve_rubric sample_rubric sample_json_loads
       (load_rubric_from_api (service_with [])) (Ok (lit ""))
       (Some (lit "CS101"))
     = (sample_rubric, [ApiFetch (lit "CS101")]).
Proof.
  assert (Hcode : lit "CS101" <> []) by discriminate.
  split; [reflexivity|]. split; [exact Hcode|].
  exact (proj2 (empty_fetched_rubric_is_not_used sample_rubric
                  sample_json_loads (service_with []) (lit "") (lit "CS101")
                  _ _ _ eq_refl Hcode eq_refl eq_refl eq_refl eq_refl
                  eq_refl eq_refl)).
Defined.
